(** * Vibe-Prolog: control built-ins, DCG built-ins and the engine contracts
      they rely on.

    The development embeds [prolog/builtins/control.py] and
    [vibeprolog/builtins/dcg.py].  Both files are written against an engine
    handle ([engine._solve_goals], [engine._check_instantiated], ...) and
    against [prolog.unification] ([unify], [deref], [Substitution]); those are
    taken as parameters of the sections below.

    Python generators are modelled as resumptions over an explicit engine
    state [W] (the clause database, flags, output, ... -- everything a goal
    may change as a side effect).  A resumption is an inductive tree: a
    generator of the model is exhausted, raises or is closed after finitely
    many activations, and every activation returns.

    The engine itself, the reader and [predicate_property/2] are not among
    the source files; where a property needs them they are modelled from
    the specification, and the definitions say so.

    The pure parts of the command-line tools under [ai-tools] -- the
    timeout option of [cli.py], [parse_pr_path] of [gh_pr_helper.py] and
    the readers of the git log of [change_tracker.py] -- are embedded as
    well, with Python's [int], [repr] and [str] and the output of the
    processes they run as parameters. *)

From Stdlib Require Import ZArith Lia Ascii.
From stdpp Require Import base strings list gmap.
Open Scope string_scope.
Open Scope list_scope.

Set Implicit Arguments.
Set Warnings "-register-all".

(* ================================================================== *)
(** ** Terms and exceptions *)
(* ================================================================== *)

(** The two kinds of Prolog numbers; a float is kept as its bit pattern. *)
Inductive Num : Type :=
| PInt (value : Z)
| PFloat (bits : Z).

(** The term classes of [prolog.parser] / [vibeprolog.terms].  [Var] is the
    source's [Variable]; equality of variables is by [id]. *)
Inductive Term : Type :=
| Atom (name : string)
| Number (value : Num)
| Var (name : string) (id : nat)
| Compound (functor : string) (args : list Term)
| PList (elements : list Term) (tail : option Term).

(** What a Python frame can raise: a Prolog-level [PrologThrow] carrying a
    term, or a host error (ValueError, IndexError, ...). *)
Inductive Exn : Type :=
| PrologThrow (term : Term)
| HostError (kind : string).

(* ================================================================== *)
(** ** Generators *)
(* ================================================================== *)

Section Generators.
Context {W Subst : Type}.

(** One activation of a generator: what [next()] observes.  A generator
    suspended at a [yield] can be resumed ([resume]) or closed ([close]:
    GeneratorExit is raised at the yield, the [finally] blocks run, and
    the call returns normally or with the exception they raised). *)
Inductive Step : Type :=
| Stopped (w : W)
| Raised (e : Exn) (w : W)
| Yielded (s : Subst) (resume : W -> Step)
          (close : W -> W * option Exn) (w : W).

(** A generator object that has not been started yet.  Closing it in
    this state runs nothing. *)
Definition Gen : Type := W -> Step.

(** A suspended generator whose last reference goes away is finalized at
    once (reference counting): it is closed, and an exception raised while
    closing is reported as unraisable, not propagated. *)
Definition finalize (close : W -> W * option Exn) (w : W) : W := fst (close w).

(** What is pending while a frame unwinds: [Some e] is an exception,
    [None] is GeneratorExit (or nothing at all, on normal completion).
    An unwinder is what the enclosing [finally] blocks and loop exits of
    one yield point do on the way out. *)
Definition Unwind : Type := option Exn -> W -> W * option Exn.

Definition propagate : Unwind := fun pending w => (w, pending).

(** [finally: cleanup]: the block runs; an exception it raises replaces
    whatever was pending. *)
Definition finally_ (cleanup : W -> W * option Exn) : Unwind :=
  fun pending w =>
    match cleanup w with
    | (w', None) => (w', pending)
    | (w', Some e) => (w', Some e)
    end.

(** Leaving a [for] loop whose iterator is the suspended generator
    [close]: the iterator is popped and finalized. *)
Definition dropping (close : W -> W * option Exn) : Unwind :=
  fun pending w => (finalize close w, pending).

(** [inner] first, then [outer]. *)
Definition unwind_then (inner outer : Unwind) : Unwind :=
  fun pending w => let (w', pending') := inner pending w in outer pending' w'.

(** The generator body ends after unwinding: StopIteration or the
    pending exception reaches the consumer. *)
Definition leave (unwind : Unwind) (pending : option Exn) (w : W) : Step :=
  match unwind pending w with
  | (w', None) => Stopped w'
  | (w', Some e) => Raised e w'
  end.

(** [yield from inner], followed by [after] when [inner] is exhausted;
    [unwind] is run when an exception or a close passes through.  On
    close the delegate is closed first. *)
Fixpoint yield_from (inner : Step) (after : W -> Step) (unwind : Unwind)
  : Step :=
  match inner with
  | Stopped w => after w
  | Raised e w => leave unwind (Some e) w
  | Yielded s resume close w =>
      Yielded s
        (fun w' => yield_from (resume w') after unwind)
        (fun w' => let (w'', pending) := close w' in unwind pending w'')
        w
  end.

(** [iter_empty()] of [prolog.builtins.common] and [iter(list)]: plain
    iterators, without finalizers. *)
Definition iter_empty : Gen := fun w => Stopped w.

Fixpoint iter (l : list Subst) : Gen :=
  fun w =>
    match l with
    | [] => Stopped w
    | s :: rest => Yielded s (iter rest) (fun w' => (w', None)) w
    end.

(** *** Consumers *)

Inductive Ending : Type :=
| Exhausted
| Failed (e : Exn)
| Closed (raised : option Exn).

Record Outcome : Type := MkOutcome {
  yields : list Subst;
  ending : Ending;
  final : W
}.

(** The consumer has received the first activation [st] and calls
    [next()] at most [n] more times; if the generator is still suspended
    then, the consumer closes it. *)
Fixpoint consume (n : nat) (st : Step) {struct st} : Outcome :=
  match st with
  | Stopped w => MkOutcome [] Exhausted w
  | Raised e w => MkOutcome [] (Failed e) w
  | Yielded s resume close w =>
      match n with
      | O => let (w', r) := close w in MkOutcome [s] (Closed r) w'
      | S n' =>
          let o := consume n' (resume w) in
          MkOutcome (s :: yields o) (ending o) (final o)
      end
  end.

(** The consumer iterates to the end. *)
Fixpoint drain (st : Step) : Outcome :=
  match st with
  | Stopped w => MkOutcome [] Exhausted w
  | Raised e w => MkOutcome [] (Failed e) w
  | Yielded s resume _ w =>
      let o := drain (resume w) in
      MkOutcome (s :: yields o) (ending o) (final o)
  end.

Definition prepend (l : list Subst) (o : Outcome) : Outcome :=
  MkOutcome (l ++ yields o) (ending o) (final o).

Definition with_final (f : W -> W) (o : Outcome) : Outcome :=
  MkOutcome (yields o) (ending o) (f (final o)).

(** What an unwinder makes of the outcome of the delegate. *)
Definition unwound (u : Unwind) (o : Outcome) : Outcome :=
  match ending o with
  | Exhausted =>
      let (w', pending) := u None (final o) in
      MkOutcome (yields o)
        (match pending with None => Exhausted | Some e => Failed e end) w'
  | Failed e =>
      let (w', pending) := u (Some e) (final o) in
      MkOutcome (yields o)
        (match pending with None => Exhausted | Some e' => Failed e' end) w'
  | Closed r =>
      let (w', pending) := u r (final o) in
      MkOutcome (yields o) (Closed pending) w'
  end.

(** Two delegations in a row: the second starts in the activation in
    which the first is found exhausted. *)
Definition followed_by (n : nat) (o : Outcome) (next : Gen)
  : Outcome :=
  match ending o with
  | Exhausted =>
      prepend (yields o) (consume (n - length (yields o)) (next (final o)))
  | _ => o
  end.

(** What a non-generator function hands back to its caller. *)
Inductive Returned (A : Type) : Type :=
| Return (a : A) (w : W)
| Raise (e : Exn) (w : W).

End Generators.

Arguments Step : clear implicits.
Arguments Gen : clear implicits.
Arguments Unwind : clear implicits.
Arguments Outcome : clear implicits.
Arguments Returned : clear implicits.
Arguments Raise {W A} e w.

(* ================================================================== *)
(** ** prolog/builtins: the registry and the result conventions *)
(* ================================================================== *)

Section BuiltinResults.
Context {W Subst : Type}.

(** Modelled from the spec: the dispatch of section 4.5, which is engine
    code absent from the source files.  A built-in hands back "a
    substitution (single deterministic success)", [None] to "signal
    failure", or raises. *)
Definition of_result (r : Exn + option Subst) : Gen W Subst :=
  fun w =>
    match r with
    | inl e => Raised e w
    | inr None => Stopped w
    | inr (Some s) => iter [s] w
    end.

(** Modelled from the spec: section 4.5, a built-in that hands back "a
    lazy sequence of substitutions"; the call itself runs when the engine
    dispatches the goal. *)
Definition of_call (call : W -> Returned W (Gen W Subst)) : Gen W Subst :=
  fun w =>
    match call w with
    | Return g w' => g w'
    | Raise e w' => Raised e w'
    end.

End BuiltinResults.

(** A built-in as the registry holds it: it receives the engine handle,
    the argument tuple and the substitution. *)
Definition Builtin (W Subst : Type) : Type :=
  (list Term -> Subst -> Gen W Subst) -> list Term -> Subst -> Gen W Subst.

Section RegisterBuiltin.
Context {W Subst : Type}.

(** Modelled from the spec: [register_builtin(registry, name, arity,
    function)] of [prolog.builtins], absent from the source files; by
    section 4.5 a built-in "is identified by (name, arity)". *)
Definition register_builtin (registry : gmap (string * nat) (Builtin W Subst))
  (name : string) (arity : nat) (function : Builtin W Subst)
  : gmap (string * nat) (Builtin W Subst) :=
  <[(name, arity) := function]> registry.

End RegisterBuiltin.

(** Modelled from the spec: [engine._flatten_conjunction], absent from the
    source files; section 4.4 item 3, "flatten leftward into a goal
    list". *)
Fixpoint _flatten_conjunction (t : Term) : list Term :=
  match t with
  | Compound functor [a; b] =>
      if String.eqb functor ","
      then _flatten_conjunction a ++ _flatten_conjunction b
      else [t]
  | _ => [t]
  end.

(* ================================================================== *)
(** ** prolog/builtins/control.py *)
(* ================================================================== *)

Module ControlBuiltins.

Section Builtins.
Context {W Subst : Type}.

(** [prolog.unification]. *)
Variable unify : Term -> Term -> Subst -> option Subst.
Variable deref : Term -> Subst -> Term.

(** The engine handle: [engine._solve_goals(goals, subst)] and
    [engine._flatten_conjunction(term)]. *)
Variable _solve_goals : list Term -> Subst -> Gen W Subst.
Variable _flatten_conjunction : Term -> list Term.

(** [return unify(args[0], args[1], subst)] *)
Definition _builtin_unify (args : list Term) (subst : Subst)
  : Exn + option Subst :=
  match args with
  | a0 :: a1 :: _ => inr (unify a0 a1 subst)
  | _ => inl (HostError "IndexError")
  end.

(** [return subst if unify(args[0], args[1], subst) is None else None] *)
Definition _builtin_not_unifiable (args : list Term) (subst : Subst)
  : Exn + option Subst :=
  match args with
  | a0 :: a1 :: _ =>
      inr (match unify a0 a1 subst with
           | None => Some subst
           | Some _ => None
           end)
  | _ => inl (HostError "IndexError")
  end.

(** [for _ in engine._solve_goals([goal], subst): return iter_empty()]
    and then [return iter([subst])].  Not a generator function: the goal
    is run when the built-in is called, up to its first solution, and an
    iterator is returned; the generator of the goal is dropped on
    [return]. *)
Definition _negation_as_failure (args : list Term) (subst : Subst) (w : W)
  : Returned W (Gen W Subst) :=
  match args with
  | goal :: _ =>
      match _solve_goals [goal] subst w with
      | Yielded _ _ close w1 => Return iter_empty (finalize close w1)
      | Stopped w1 => Return (iter [subst]) w1
      | Raised e w1 => Raise e w1
      end
  | [] => Raise (HostError "IndexError") w
  end.

(** With [left] a compound [->] of two arguments:
    [for condition_subst in engine._solve_goals([condition], subst):
         yield from engine._solve_goals([then_part], condition_subst)
         return
     yield from engine._solve_goals([else_part], subst)]
    The loop body ends in [return], so only the first activation of the
    condition's generator is used; that generator stays suspended while
    [then_part] is delegated to and is finalized when the frame is left.
    Otherwise:
    [yield from engine._solve_goals([left], subst)
     yield from engine._solve_goals([right], subst)] *)
Definition _builtin_disjunction (args : list Term) (subst : Subst)
  : Gen W Subst :=
  fun w =>
    match args with
    | [left_; right_] =>
        let disjunction :=
          yield_from (_solve_goals [left_] subst w)
            (fun w1 =>
               yield_from (_solve_goals [right_] subst w1)
                 (fun w2 => Stopped w2) propagate)
            propagate in
        match left_ with
        | Compound functor [condition; then_part] =>
            if String.eqb functor "->" then
              let else_part := right_ in
              match _solve_goals [condition] subst w with
              | Yielded condition_subst _ close_condition w1 =>
                  yield_from
                    (_solve_goals [then_part] condition_subst w1)
                    (leave (dropping close_condition) None)
                    (dropping close_condition)
              | Stopped w1 =>
                  yield_from (_solve_goals [else_part] subst w1)
                    (fun w2 => Stopped w2) propagate
              | Raised e w1 => Raised e w1
              end
            else disjunction
        | _ => disjunction
        end
    | _ => Raised (HostError "ValueError") w
    end.

(** [for condition_subst in engine._solve_goals([condition], subst):
         yield from engine._solve_goals([then_part], condition_subst)
         return] *)
Definition _builtin_if_then (args : list Term) (subst : Subst)
  : Gen W Subst :=
  fun w =>
    match args with
    | [condition; then_part] =>
        match _solve_goals [condition] subst w with
        | Yielded condition_subst _ close_condition w1 =>
            yield_from (_solve_goals [then_part] condition_subst w1)
              (leave (dropping close_condition) None)
              (dropping close_condition)
        | Stopped w1 => Stopped w1
        | Raised e w1 => Raised e w1
        end
    | _ => Raised (HostError "ValueError") w
    end.

(** [goals = engine._flatten_conjunction(Compound(",", (left, right)))
     yield from engine._solve_goals(goals, subst)] *)
Definition _builtin_conjunction (args : list Term) (subst : Subst)
  : Gen W Subst :=
  fun w =>
    match args with
    | [left_; right_] =>
        let goals := _flatten_conjunction (Compound "," [left_; right_]) in
        yield_from (_solve_goals goals subst w)
          (fun w1 => Stopped w1) propagate
    | _ => Raised (HostError "ValueError") w
    end.

(** [goal = deref(args[0], subst)
     yield from engine._solve_goals([goal], subst)] *)
Definition _builtin_call (args : list Term) (subst : Subst)
  : Gen W Subst :=
  fun w =>
    match args with
    | a0 :: _ =>
        let goal := deref a0 subst in
        yield_from (_solve_goals [goal] subst w)
          (fun w1 => Stopped w1) propagate
    | [] => Raised (HostError "IndexError") w
    end.

(** [for solution in engine._solve_goals([goal], subst):
         yield solution
         return]
    Resumed or closed at its only [yield], the frame is left and the
    generator of the goal is finalized. *)
Definition _builtin_once (args : list Term) (subst : Subst)
  : Gen W Subst :=
  fun w =>
    match args with
    | a0 :: _ =>
        let goal := deref a0 subst in
        match _solve_goals [goal] subst w with
        | Yielded solution _ close w1 =>
            Yielded solution
              (fun w2 => Stopped (finalize close w2))
              (fun w2 => (finalize close w2, None))
              w1
        | Stopped w1 => Stopped w1
        | Raised e w1 => Raised e w1
        end
    | [] => Raised (HostError "IndexError") w
    end.

Definition _builtin_true (_args : list Term) (subst : Subst) : Subst :=
  subst.

Definition _builtin_fail (_args : list Term) (_subst : Subst)
  : Gen W Subst :=
  iter_empty.

(** The [finally] block of both cleanup built-ins:
    [for _ in engine._solve_goals([cleanup_goal], subst): break]
    One activation of the cleanup goal; on [break] its generator is
    dropped.  The result is the exception the block raised, if any. *)
Definition call_cleanup_once (cleanup_goal : Term) (subst : Subst) (w : W)
  : W * option Exn :=
  match _solve_goals [cleanup_goal] subst w with
  | Yielded _ _ close w1 => (finalize close w1, None)
  | Stopped w1 => (w1, None)
  | Raised e w1 => (w1, Some e)
  end.

(** [for setup_subst in engine._solve_goals([setup_goal], subst):
         try:
             yield from engine._solve_goals([goal], setup_subst)
         finally:
             for _ in engine._solve_goals([cleanup_goal], setup_subst):
                 break
         break]
    Whatever ends the [yield from] -- exhaustion, an exception, a close --
    passes through the [finally] block and then leaves the loop, which
    drops the generator of the setup goal. *)
Definition _builtin_setup_call_cleanup (args : list Term) (subst : Subst)
  : Gen W Subst :=
  fun w =>
    match args with
    | [setup_goal; goal; cleanup_goal] =>
        let setup_goal := deref setup_goal subst in
        let goal := deref goal subst in
        let cleanup_goal := deref cleanup_goal subst in
        match _solve_goals [setup_goal] subst w with
        | Yielded setup_subst _ close_setup w1 =>
            let unwind :=
              unwind_then
                (finally_ (call_cleanup_once cleanup_goal setup_subst))
                (dropping close_setup) in
            yield_from (_solve_goals [goal] setup_subst w1)
              (leave unwind None) unwind
        | Stopped w1 => Stopped w1
        | Raised e w1 => Raised e w1
        end
    | _ => Raised (HostError "ValueError") w
    end.

(** [try:
         yield from engine._solve_goals([goal], subst)
     finally:
         for _ in engine._solve_goals([cleanup_goal], subst):
             break] *)
Definition _builtin_call_cleanup (args : list Term) (subst : Subst)
  : Gen W Subst :=
  fun w =>
    match args with
    | [goal; cleanup_goal] =>
        let goal := deref goal subst in
        let cleanup_goal := deref cleanup_goal subst in
        let unwind := finally_ (call_cleanup_once cleanup_goal subst) in
        yield_from (_solve_goals [goal] subst w) (leave unwind None) unwind
    | _ => Raised (HostError "ValueError") w
    end.

End Builtins.

Section Register.
Context {W Subst : Type}.
Variable unify : Term -> Term -> Subst -> option Subst.
Variable deref : Term -> Subst -> Term.

(** [ControlBuiltins.register(registry, _engine)]. *)
Definition register (registry : gmap (string * nat) (Builtin W Subst))
  : gmap (string * nat) (Builtin W Subst) :=
  let registry := register_builtin registry "=" 2
    (fun _ args subst => of_result (_builtin_unify unify args subst)) in
  let registry := register_builtin registry "\=" 2
    (fun _ args subst =>
       of_result (_builtin_not_unifiable unify args subst)) in
  let registry := register_builtin registry "\+" 1
    (fun solve args subst =>
       of_call (_negation_as_failure solve args subst)) in
  let registry := register_builtin registry ";" 2
    (fun solve => _builtin_disjunction solve) in
  let registry := register_builtin registry "->" 2
    (fun solve => _builtin_if_then solve) in
  let registry := register_builtin registry "," 2
    (fun solve => _builtin_conjunction solve _flatten_conjunction) in
  let registry := register_builtin registry "call" 1
    (fun solve => _builtin_call deref solve) in
  let registry := register_builtin registry "once" 1
    (fun solve => _builtin_once deref solve) in
  let registry := register_builtin registry "true" 0
    (fun _ args subst => of_result (inr (Some (_builtin_true args subst)))) in
  let registry := register_builtin registry "fail" 0
    (fun _ args subst => _builtin_fail args subst) in
  let registry := register_builtin registry "setup_call_cleanup" 3
    (fun solve => _builtin_setup_call_cleanup deref solve) in
  let registry := register_builtin registry "call_cleanup" 2
    (fun solve => _builtin_call_cleanup deref solve) in
  registry.

End Register.

End ControlBuiltins.

(* ================================================================== *)
(** ** prolog/builtins/_test_dummy.py *)
(* ================================================================== *)

Module DummyBuiltins.

Section Builtins.
Context {Subst Engine : Type}.

(** [assert engine is not None
     return subst] *)
Definition dummy_test (_args : list Term) (subst : Subst)
  (engine : option Engine) : Exn + Subst :=
  match engine with
  | Some _ => inr subst
  | None => inl (HostError "AssertionError")
  end.

End Builtins.

Section Register.
Context {W Subst : Type}.

(** [DummyBuiltins.register(registry, engine_ref=None)]:
    [register_builtin(registry, "dummy_test", 0, DummyBuiltins.dummy_test)].
    The engine that dispatches the goal passes itself to the built-in. *)
Definition register (registry : gmap (string * nat) (Builtin W Subst))
  : gmap (string * nat) (Builtin W Subst) :=
  register_builtin registry "dummy_test" 0
    (fun solve args subst =>
       of_result
         (match dummy_test args subst (Some solve) with
          | inl e => inl e
          | inr s => inr (Some s)
          end)).

End Register.

End DummyBuiltins.

(* ================================================================== *)
(** ** Error terms and the engine's checking helpers *)
(* ================================================================== *)

(** Modelled from the spec: the error terms of section 6,
    [error(Formal, Context)]; the construction of these terms is not in
    the source files at hand.  The context records the built-in that
    raised the error. *)
Definition error_term (formal : Term) (context : string) : Exn :=
  PrologThrow (Compound "error" [formal; Compound "context" [Atom context]]).

Definition indicator_term (name : string) (arity : nat) : Term :=
  Compound "/" [Atom name; Number (PInt (Z.of_nat arity))].

Definition instantiation_error (context : string) : Exn :=
  error_term (Atom "instantiation_error") context.

Definition type_error (expected : string) (culprit : Term)
  (context : string) : Exn :=
  error_term (Compound "type_error" [Atom expected; culprit]) context.

Definition existence_error (name : string) (arity : nat)
  (context : string) : Exn :=
  error_term
    (Compound "existence_error" [Atom "procedure"; indicator_term name arity])
    context.

Definition resource_error (kind : string) (context : string) : Exn :=
  error_term (Compound "resource_error" [Atom kind]) context.

Definition syntax_error (description : string) (context : string) : Exn :=
  error_term (Compound "syntax_error" [Atom description]) context.

(** The Python classes a term can be an instance of. *)
Inductive TermClass : Type :=
| AtomClass
| NumberClass
| VariableClass
| CompoundClass
| ListClass.

Definition class_of (t : Term) : TermClass :=
  match t with
  | Atom _ => AtomClass
  | Number _ => NumberClass
  | Var _ _ => VariableClass
  | Compound _ _ => CompoundClass
  | PList _ _ => ListClass
  end.

Definition TermClass_eqb (a b : TermClass) : bool :=
  match a, b with
  | AtomClass, AtomClass
  | NumberClass, NumberClass
  | VariableClass, VariableClass
  | CompoundClass, CompoundClass
  | ListClass, ListClass => true
  | _, _ => false
  end.

Definition isinstance (t : Term) (classes : list TermClass) : bool :=
  existsb (TermClass_eqb (class_of t)) classes.

(** The predicate indicator a goal is resolved under. *)
Definition goal_indicator (goal : Term) : option (string * nat) :=
  match goal with
  | Atom name => Some (name, 0)
  | Compound functor args => Some (functor, length args)
  | _ => None
  end.

Section EngineChecks.
Context {W Subst : Type}.
Variable deref : Term -> Subst -> Term.

(** Whether the engine, in state [w], knows a predicate under this
    indicator (a built-in, or a predicate of the clause database). *)
Variable predicate_defined : string -> nat -> W -> bool.

(** Modelled from the spec: [engine._check_instantiated], absent from the
    source files; section 7 "instantiation (required-bound argument is
    unbound)".  [None] means the check passes. *)
Definition _check_instantiated (term : Term) (subst : Subst)
  (context : string) : option Exn :=
  match deref term subst with
  | Var _ _ => Some (instantiation_error context)
  | _ => None
  end.

(** Modelled from the spec: [engine._check_type], absent from the source
    files; section 7 "type (argument is not of the required kind)", with
    the error term [type_error(Expected, Culprit)]. *)
Definition _check_type (term : Term) (classes : list TermClass)
  (expected : string) (subst : Subst) (context : string) : option Exn :=
  let term := deref term subst in
  if isinstance term classes then None
  else Some (type_error expected term context).

(** Modelled from the spec: [engine._check_predicate_exists], absent from
    the source files; section 7 "existence (referenced procedure absent
    and not dynamic)", with [existence_error(procedure, Name/Arity)]. *)
Definition _check_predicate_exists (goal : Term) (context : string) (w : W)
  : option Exn :=
  match goal_indicator goal with
  | Some (name, arity) =>
      if predicate_defined name arity w then None
      else Some (existence_error name arity context)
  | None => Some (type_error "callable" goal context)
  end.

End EngineChecks.

(* ================================================================== *)
(** ** vibeprolog/builtins/dcg.py *)
(* ================================================================== *)

Module DCGBuiltins.

Section Builtins.
Context {W Subst : Type}.
Variable deref : Term -> Subst -> Term.
Variable predicate_defined : string -> nat -> W -> bool.
Variable _solve_goals : list Term -> Subst -> Gen W Subst.

(** [phrase(RuleSet, List)]: the rule set is checked, the goal
    [RuleSet(..., List, [])] is built -- [Compound(name, (input_list,
    empty_list))] for an atom, [Compound(functor, args + (input_list,
    empty_list))] otherwise --, its predicate is checked to exist, and
    [yield from engine._solve_goals([goal], subst)]. *)
Definition _builtin_phrase_2 (args : list Term) (subst : Subst)
  : Gen W Subst :=
  fun w =>
    match args with
    | [rule_set; input_list] =>
        match _check_instantiated deref rule_set subst "phrase/2" with
        | Some e => Raised e w
        | None =>
        match _check_type deref rule_set [AtomClass; CompoundClass]
                "callable" subst "phrase/2" with
        | Some e => Raised e w
        | None =>
            let rule_set_deref := deref rule_set subst in
            let empty_list := PList [] None in
            let expanded :=
              match rule_set_deref with
              | Atom name =>
                  inr (Compound name [input_list; empty_list])
              | Compound functor rule_args =>
                  inr (Compound functor
                         (rule_args ++ [input_list; empty_list]))
              | _ => inl (HostError "AttributeError")
              end in
            match expanded with
            | inl e => Raised e w
            | inr goal =>
                match _check_predicate_exists predicate_defined goal
                        "phrase/2" w with
                | Some e => Raised e w
                | None =>
                    yield_from (_solve_goals [goal] subst w)
                      (fun w1 => Stopped w1) propagate
                end
            end
        end
        end
    | _ => Raised (HostError "ValueError") w
    end.

(** [phrase(RuleSet, List, Rest)]: as above with [(input_list, rest)]. *)
Definition _builtin_phrase_3 (args : list Term) (subst : Subst)
  : Gen W Subst :=
  fun w =>
    match args with
    | [rule_set; input_list; rest] =>
        match _check_instantiated deref rule_set subst "phrase/3" with
        | Some e => Raised e w
        | None =>
        match _check_type deref rule_set [AtomClass; CompoundClass]
                "callable" subst "phrase/3" with
        | Some e => Raised e w
        | None =>
            let rule_set_deref := deref rule_set subst in
            let expanded :=
              match rule_set_deref with
              | Atom name => inr (Compound name [input_list; rest])
              | Compound functor rule_args =>
                  inr (Compound functor (rule_args ++ [input_list; rest]))
              | _ => inl (HostError "AttributeError")
              end in
            match expanded with
            | inl e => Raised e w
            | inr goal =>
                match _check_predicate_exists predicate_defined goal
                        "phrase/3" w with
                | Some e => Raised e w
                | None =>
                    yield_from (_solve_goals [goal] subst w)
                      (fun w1 => Stopped w1) propagate
                end
            end
        end
        end
    | _ => Raised (HostError "ValueError") w
    end.

End Builtins.

Section Register.
Context {W Subst : Type}.
Variable deref : Term -> Subst -> Term.
Variable predicate_defined : string -> nat -> W -> bool.

(** [DCGBuiltins.register(registry, _engine)]. *)
Definition register (registry : gmap (string * nat) (Builtin W Subst))
  : gmap (string * nat) (Builtin W Subst) :=
  let registry := register_builtin registry "phrase" 2
    (fun solve => _builtin_phrase_2 deref predicate_defined solve) in
  let registry := register_builtin registry "phrase" 3
    (fun solve => _builtin_phrase_3 deref predicate_defined solve) in
  registry.

End Register.

End DCGBuiltins.

Import ControlBuiltins DCGBuiltins.

(* ================================================================== *)
(** ** The resolver of section 4.4 *)
(* ================================================================== *)

(** Modelled from the spec: the clause database of section 3, which maps a
    predicate indicator to its clauses, in order, and its property flags.
    The database class is absent from the source files.  A clause is a
    pair (head, body).  The first-argument index only filters clauses
    that cannot match and is left out. *)
Record Predicate : Type := MkPredicate {
  clauses : list (Term * Term);
  dynamic : bool;
  multifile : bool;
  discontiguous : bool
}.

(** The argument tuple of a goal; an atom has none. *)
Definition goal_args (goal : Term) : list Term :=
  match goal with
  | Compound _ args => args
  | _ => []
  end.

Section Answers.
Context {Subst : Type}.

(** The solutions of a goal list, in order, and how the search ended:
    [Done cut] when the alternatives are exhausted ([cut] tells the
    enclosing frame that a cut was executed), [Abort e] when an exception
    escaped. *)
Inductive Answers : Type :=
| Done (cut : bool)
| Abort (e : Exn)
| More (s : Subst) (rest : Answers).

Fixpoint solutions (a : Answers) : list Subst :=
  match a with
  | More s rest => s :: solutions rest
  | _ => []
  end.

Fixpoint aborted (a : Answers) : option Exn :=
  match a with
  | Done _ => None
  | Abort e => Some e
  | More _ rest => aborted rest
  end.

Fixpoint cut_signal (a : Answers) : bool :=
  match a with
  | Done cut => cut
  | Abort _ => false
  | More _ rest => cut_signal rest
  end.

(** A cut was executed on the way to these answers. *)
Fixpoint mark_cut (a : Answers) : Answers :=
  match a with
  | Done _ => Done true
  | Abort e => Abort e
  | More s rest => More s (mark_cut rest)
  end.

(** A barrier: the cut signal stops here. *)
Fixpoint barrier (a : Answers) : Answers :=
  match a with
  | Done _ => Done false
  | Abort e => Abort e
  | More s rest => More s (barrier rest)
  end.

(** [first] and then, unless [first] was cut short by a cut or an
    exception, the alternative [second]. *)
Fixpoint or_else (first second : Answers) : Answers :=
  match first with
  | Done true => Done true
  | Done false => second
  | Abort e => Abort e
  | More s rest => More s (or_else rest second)
  end.

(** The same at the frame of a predicate call: a cut in a clause body
    discards the remaining clauses and goes no further. *)
Fixpoint or_else_clause (body remaining : Answers) : Answers :=
  match body with
  | Done true => Done false
  | Done false => remaining
  | Abort e => Abort e
  | More s rest => More s (or_else_clause rest remaining)
  end.

(** For every solution of a goal, the rest of the goal list; a cut in the
    rest discards the remaining solutions of the goal. *)
Fixpoint and_then (a : Answers) (continue : Subst -> Answers) : Answers :=
  match a with
  | Done cut => Done cut
  | Abort e => Abort e
  | More s rest => or_else (continue s) (and_then rest continue)
  end.

(** The first answer, for the constructs that commit to it. *)
Definition first_answer (a : Answers) : Exn + option Subst :=
  match a with
  | Done _ => inr None
  | Abort e => inl e
  | More s _ => inr (Some s)
  end.

(** Answers as the iterator a built-in receives from
    [engine._solve_goals], and the answers a built-in's iterator gives.
    An iterator of substitutions carries no cut signal. *)
Fixpoint answers_iterator (a : Answers) : Gen unit Subst :=
  fun w =>
    match a with
    | Done _ => Stopped w
    | Abort e => Raised e w
    | More s rest => Yielded s (answers_iterator rest) (fun w' => (w', None)) w
    end.

Fixpoint iterate (st : Step unit Subst) : Answers :=
  match st with
  | Stopped _ => Done false
  | Raised e _ => Abort e
  | Yielded s resume _ w => More s (iterate (resume w))
  end.

End Answers.

Arguments Answers : clear implicits.

(** Modelled from the spec: the interpreter of sections 4.4 and 6; the
    engine class is absent from the source files.  It holds the clause
    database, the built-in registry and the configured recursion limit
    ([PrologInterpreter(max_recursion_depth=...)]). *)
Record Interpreter (Subst : Type) : Type := MkInterpreter {
  database : gmap (string * nat) Predicate;
  registry : gmap (string * nat) (Builtin unit Subst);
  max_recursion_depth : nat
}.

Section Resolver.
Context {Subst : Type}.
Variable unify : Term -> Term -> Subst -> option Subst.
Variable deref : Term -> Subst -> Term.

(** A copy of the clause with fresh variables; the supply of fresh
    identifiers travels with the substitution. *)
Variable rename_clause : Term * Term -> Subst -> (Term * Term) * Subst.

Variable interpreter : Interpreter Subst.

(** The goal [name/arity] is [n/a]. *)
Definition is_goal (name : string) (arity : nat) (n : string) (a : nat)
  : bool :=
  String.eqb name n && Nat.eqb arity a.

(** Modelled from the spec: section 4.4 item 9, "for each candidate
    clause (in clause-list order) copy the clause with fresh variable ids,
    unify the goal with the renamed head; on success, recursively solve
    the renamed body in the unified substitution; on backtracking, try the
    next clause.  A cut inside a clause body truncates the remaining
    clause candidates of this predicate call." *)
Fixpoint try_clauses (solve_body : list Term -> Subst -> Answers Subst)
  (goal : Term) (s : Subst) (candidates : list (Term * Term))
  : Answers Subst :=
  match candidates with
  | [] => Done false
  | clause :: remaining =>
      let '((head, body), s0) := rename_clause clause s in
      match unify goal head s0 with
      | None => try_clauses solve_body goal s remaining
      | Some s1 =>
          or_else_clause (solve_body [body] s1)
            (try_clauses solve_body goal s remaining)
      end
  end.

(** Modelled from the spec: section 4.4 "Exceptions": "if a throw escapes
    with a term that unifies with Catcher, the resolver restores the
    substitution to the catch point and solves Handler; otherwise the
    throw propagates". *)
Fixpoint catching (a : Answers Subst) (catcher : Term) (s : Subst)
  (handler : Subst -> Answers Subst) : Answers Subst :=
  match a with
  | Done cut => Done cut
  | More s' rest => More s' (catching rest catcher s handler)
  | Abort (PrologThrow ball) =>
      match unify catcher ball s with
      | Some s1 => handler s1
      | None => Abort (PrologThrow ball)
      end
  | Abort e => Abort e
  end.

(** Modelled from the spec: section 4.4 item 4.  [solve] is the resolver
    at the current depth.  The condition of an if-then-else is solved as a
    goal list of its own and only its first solution is used. *)
Definition solve_disjunction (solve : list Term -> Subst -> Answers Subst)
  (args rest : list Term) (s : Subst) : Answers Subst :=
  match args with
  | [left_; right_] =>
      let alternatives :=
        or_else (solve (left_ :: rest) s) (solve (right_ :: rest) s) in
      match left_ with
      | Compound functor [condition; then_part] =>
          if String.eqb functor "->" then
            match first_answer (solve [condition] s) with
            | inl e => Abort e
            | inr (Some s1) => solve (then_part :: rest) s1
            | inr None => solve (right_ :: rest) s
            end
          else alternatives
      | _ => alternatives
      end
  | _ => Done false
  end.

(** Modelled from the spec: section 4.4 item 5. *)
Definition solve_if_then (solve : list Term -> Subst -> Answers Subst)
  (args rest : list Term) (s : Subst) : Answers Subst :=
  match args with
  | [condition; then_part] =>
      match first_answer (solve [condition] s) with
      | inl e => Abort e
      | inr (Some s1) => solve (then_part :: rest) s1
      | inr None => Done false
      end
  | _ => Done false
  end.

(** Modelled from the spec: section 4.4 item 6. *)
Definition solve_negation (solve : list Term -> Subst -> Answers Subst)
  (args rest : list Term) (s : Subst) : Answers Subst :=
  match first_answer (solve args s) with
  | inl e => Abort e
  | inr (Some _) => Done false
  | inr None => solve rest s
  end.

(** Modelled from the spec: section 4.4 "Exceptions", [throw/1] and
    [catch/3]. *)
Definition solve_throw (args : list Term) (s : Subst) : Answers Subst :=
  match args with
  | [ball] => Abort (PrologThrow (deref ball s))
  | _ => Done false
  end.

Definition solve_catch (solve : list Term -> Subst -> Answers Subst)
  (args rest : list Term) (s : Subst) : Answers Subst :=
  match args with
  | [protected; catcher; handler] =>
      and_then
        (catching (barrier (solve [protected] s)) catcher s
           (fun s1 => barrier (solve [handler] s1)))
        (solve rest)
  | _ => Done false
  end.

(** Modelled from the spec: section 4.4 item 8; the built-in receives
    the arguments, the substitution and the engine handle, whose
    [_solve_goals] hands back an iterator of substitutions. *)
Definition solve_builtin (solve : list Term -> Subst -> Answers Subst)
  (builtin : Builtin unit Subst) (args rest : list Term) (s : Subst)
  : Answers Subst :=
  and_then
    (iterate
       (builtin (fun goals s' => answers_iterator (solve goals s')) args s tt))
    (solve rest).

(** Modelled from the spec: section 4.4 item 9 and "Depth limiting": "a
    recursion depth counter that is incremented on each predicate-call
    frame and decremented on unwind.  Exceeding a configured limit raises
    [resource_error(recursion_depth_exceeded)]".  [solve_deeper] is the
    resolver one frame deeper. *)
Definition solve_predicate
  (solve solve_deeper : list Term -> Subst -> Answers Subst) (depth : nat)
  (name : string) (arity : nat) (goal : Term) (rest : list Term) (s : Subst)
  : Answers Subst :=
  match database interpreter !! (name, arity) with
  | None => Abort (existence_error name arity "call/1")
  | Some predicate =>
      match clauses predicate, dynamic predicate with
      | [], false => Abort (existence_error name arity "call/1")
      | candidates, _ =>
          if Nat.ltb (max_recursion_depth interpreter) (S depth)
          then Abort (resource_error "recursion_depth_exceeded" "call/1")
          else and_then (try_clauses solve_deeper goal s candidates)
                 (solve rest)
      end
  end.

(** The goals the resolver evaluates itself: items 1 to 7, [throw/1] and
    [catch/3]. *)
Definition control_construct (name : string) (arity : nat) : bool :=
  let named := is_goal name arity in
  named "true" 0 || named "fail" 0 || named "false" 0 || named "," 2
  || named ";" 2 || named "->" 2 || named "\+" 1 || named "!" 0
  || named "throw" 1 || named "catch" 3.

(** Modelled from the spec: the goal evaluation procedure of section 4.4
    on a single, dereferenced goal, items 1 to 9 in this order. *)
Definition solve_goal
  (solve solve_deeper : list Term -> Subst -> Answers Subst) (depth : nat)
  (goal : Term) (rest : list Term) (s : Subst) : Answers Subst :=
  match goal_indicator goal with
  | None =>
      match goal with
      | Var _ _ => Abort (instantiation_error "call/1")
      | _ => Abort (type_error "callable" goal "call/1")
      end
  | Some (name, arity) =>
      let named := is_goal name arity in
      let args := goal_args goal in
      if named "true" 0 then solve rest s
      else if named "fail" 0 || named "false" 0 then Done false
      else if named "," 2 then solve (args ++ rest) s
      else if named ";" 2 then solve_disjunction solve args rest s
      else if named "->" 2 then solve_if_then solve args rest s
      else if named "\+" 1 then solve_negation solve args rest s
      else if named "!" 0 then mark_cut (solve rest s)
      else if named "throw" 1 then solve_throw args s
      else if named "catch" 3 then solve_catch solve args rest s
      else
        match registry interpreter !! (name, arity) with
        | Some builtin => solve_builtin solve builtin args rest s
        | None =>
            solve_predicate solve solve_deeper depth name arity goal rest s
        end
  end.

(** The resolver: [solve(goal-list, substitution)].  [depth] is the
    number of predicate-call frames the goal list is nested in.  [fuel]
    bounds the nesting of the host's own calls: running out of it is the
    host-language stack overflow. *)
Fixpoint solve (fuel depth : nat) (goals : list Term) (s : Subst)
  : Answers Subst :=
  match fuel with
  | O => Abort (HostError "RecursionError")
  | S fuel =>
      match goals with
      | [] => More s (Done false)
      | g :: rest =>
          solve_goal (solve fuel depth) (solve fuel (S depth)) depth
            (deref g s) rest s
      end
  end.

(** Modelled from the spec: the query API of section 6; the depth counter
    "is per-query and reset between top-level queries". *)
Definition query (fuel : nat) (goal : Term) (s : Subst) : Answers Subst :=
  barrier (solve fuel 0 [goal] s).

End Resolver.

(* ================================================================== *)
(** ** Predicate properties (section 4.3) *)
(* ================================================================== *)

Section PredicateProperty.
Context {W Subst : Type}.
Variable unify : Term -> Term -> Subst -> option Subst.
Variable deref : Term -> Subst -> Term.
Variable interpreter : Interpreter Subst.

(** A predicate the engine implements itself: a control construct of the
    resolver or an entry of the built-in registry. *)
Definition is_built_in (key : string * nat) : bool :=
  control_construct (fst key) (snd key)
  || bool_decide (is_Some (registry interpreter !! key)).

(** The flag is set for the predicate in the database. *)
Definition declared (flag : Predicate -> bool) (key : string * nat) : bool :=
  match database interpreter !! key with
  | Some predicate => flag predicate
  | None => false
  end.

(** The clauses the database holds for the predicate. *)
Definition defining_clauses (key : string * nat) : list (Term * Term) :=
  match database interpreter !! key with
  | Some predicate => clauses predicate
  | None => []
  end.

(** Modelled from the spec: section 4.3, "for predicates that exist". *)
Definition predicate_exists (key : string * nat) : bool :=
  is_built_in key
  || negb (bool_decide (defining_clauses key = []))
  || declared dynamic key.

(** Modelled from the spec: section 4.3, [predicate_property]: "enumerate
    properties {built_in, static, dynamic, multifile, discontiguous} as
    atoms for predicates that exist.  A predicate indicator with no
    defining clauses and no dynamic declaration is treated as static by
    default, but no other property holds."  The built-in itself is absent
    from the source files. *)
Definition predicate_properties (key : string * nat) : list string :=
  if predicate_exists key then
    (if is_built_in key then ["built_in"] else [])
    ++ (if declared dynamic key then ["dynamic"] else ["static"])
    ++ (if declared multifile key then ["multifile"] else [])
    ++ (if declared discontiguous key then ["discontiguous"] else [])
  else ["static"].



End PredicateProperty.

(* ================================================================== *)
(** ** Conditional compilation (section 4.2) *)
(* ================================================================== *)

(** A top-level term of a source unit: a directive [:- Goal.] or a
    clause. *)
Inductive Item : Type :=
| Directive (goal : Term)
| Clause (head body : Term).

(** Modelled from the spec: one entry of the reader's "stack of per-file
    blocks".  [included] tells whether the terms of the current branch
    are loaded, [enclosing] whether the block itself stands in loaded
    text, [taken] whether a branch of the block has been loaded, and
    [seen_else] whether its [:- else.] has been read. *)
Record Block : Type := MkBlock {
  included : bool;
  enclosing : bool;
  taken : bool;
  seen_else : bool
}.

(** Whether the text being read is loaded: outside every block it is. *)
Definition inclusion (stack : list Block) : bool :=
  match stack with
  | [] => true
  | block :: _ => included block
  end.

(** A clause is appended to the clauses of its predicate. *)
Definition add_clause (head body : Term)
  (db : gmap (string * nat) Predicate) : gmap (string * nat) Predicate :=
  match goal_indicator head with
  | Some key =>
      match db !! key with
      | Some predicate =>
          <[key := MkPredicate (clauses predicate ++ [(head, body)])
                     (dynamic predicate) (multifile predicate)
                     (discontiguous predicate)]> db
      | None => <[key := MkPredicate [(head, body)] false false false]> db
      end
  | None => db
  end.

Section Reader.

(** Whether the goal of [:- if(Goal).] has a solution against the
    database loaded so far, and what running any other directive does. *)
Variable has_solution : Term -> gmap (string * nat) Predicate -> bool.
Variable run_directive :
  Term -> gmap (string * nat) Predicate ->
  Exn + gmap (string * nat) Predicate.

Definition ReaderState : Type :=
  (list Block * gmap (string * nat) Predicate)%type.

(** Modelled from the spec: section 4.2, "Directives [:- if(Goal).],
    [:- else.], [:- endif.] push/pop/flip inclusion state.  Inclusion
    state determines whether subsequent clauses are added to the database
    ...  Mismatched else/endif, multiple else in one block ... raise a
    structured error."  The reader is absent from the source files. *)
Definition read_item (item : Item) (state : ReaderState)
  : Exn + ReaderState :=
  let (stack, db) := state in
  match item with
  | Clause head body =>
      if inclusion stack then inr (stack, add_clause head body db)
      else inr state
  | Directive goal =>
      match goal_indicator goal with
      | Some (name, arity) =>
          if is_goal name arity "if" 1 then
            let loaded := inclusion stack in
            let holds :=
              loaded && has_solution (hd goal (goal_args goal)) db in
            inr (MkBlock holds loaded holds false :: stack, db)
          else if is_goal name arity "else" 0 then
            match stack with
            | [] => inl (syntax_error "else_without_if" "consult/1")
            | block :: outer =>
                if seen_else block then
                  inl (syntax_error "multiple_else" "consult/1")
                else
                  inr (MkBlock (enclosing block && negb (taken block))
                         (enclosing block) true true :: outer, db)
            end
          else if is_goal name arity "endif" 0 then
            match stack with
            | [] => inl (syntax_error "endif_without_if" "consult/1")
            | _ :: outer => inr (outer, db)
            end
          else if inclusion stack then
            match run_directive goal db with
            | inl e => inl e
            | inr db' => inr (stack, db')
            end
          else inr state
      | None =>
          if inclusion stack then
            inl (type_error "callable" goal "consult/1")
          else inr state
      end
  end.

Fixpoint read_items (items : list Item) (state : ReaderState)
  : Exn + ReaderState :=
  match items with
  | [] => inr state
  | item :: rest =>
      match read_item item state with
      | inl e => inl e
      | inr state' => read_items rest state'
      end
  end.

(** Modelled from the spec: [consult] of one source unit, whose block
    stack starts empty ("the stack is scoped per source file"); "unclosed
    if at end-of-file" raises. *)
Definition consult (items : list Item) (db : gmap (string * nat) Predicate)
  : Exn + gmap (string * nat) Predicate :=
  match read_items items ([], db) with
  | inl e => inl e
  | inr ([], db') => inr db'
  | inr (_ :: _, _) => inl (syntax_error "unclosed_if" "consult/1")
  end.

End Reader.

(* ================================================================== *)
(** ** Python strings *)
(* ================================================================== *)

(** A Python string is taken as a sequence of 8-bit characters.  The
    methods below are the ones the command-line tools use, each with a
    one-character argument. *)

(** [c not in s]. *)
Fixpoint free_of (c : ascii) (s : string) : bool :=
  match s with
  | EmptyString => true
  | String a rest => negb (Ascii.eqb a c) && free_of c rest
  end.

(** [s.split(sep, 1)]: the text before the first separator and, when
    there is one, the text after it. *)
Fixpoint split_once (sep : ascii) (s : string) : string * option string :=
  match s with
  | EmptyString => (EmptyString, None)
  | String c rest =>
      if Ascii.eqb c sep then (EmptyString, Some rest)
      else let (head, tail) := split_once sep rest in (String c head, tail)
  end.

(** [s.split(sep, maxsplit)]: the first part and the parts after it. *)
Fixpoint split_max (sep : ascii) (maxsplit : nat) (s : string)
  : string * list string :=
  match maxsplit with
  | O => (s, [])
  | S maxsplit =>
      match split_once sep s with
      | (head, None) => (head, [])
      | (head, Some rest) =>
          (head,
           fst (split_max sep maxsplit rest)
           :: snd (split_max sep maxsplit rest))
      end
  end.

(** [s.split(sep)]: the first part and the parts after it; the list
    Python returns is never empty. *)
Fixpoint split (sep : ascii) (s : string) : string * list string :=
  match s with
  | EmptyString => (EmptyString, [])
  | String c rest =>
      let (head, tail) := split sep rest in
      if Ascii.eqb c sep then (EmptyString, head :: tail)
      else (String c head, tail)
  end.

(** [s.lstrip(c)], [s.rstrip(c)] and [s.strip(c)]. *)
Fixpoint lstrip (c : ascii) (s : string) : string :=
  match s with
  | EmptyString => EmptyString
  | String a rest => if Ascii.eqb a c then lstrip c rest else s
  end.

Fixpoint rstrip (c : ascii) (s : string) : string :=
  match s with
  | EmptyString => EmptyString
  | String a rest =>
      match rstrip c rest with
      | EmptyString => if Ascii.eqb a c then EmptyString
                       else String a EmptyString
      | kept => String a kept
      end
  end.

Definition strip (c : ascii) (s : string) : string := rstrip c (lstrip c s).

(** The tab character. *)
Definition tab : ascii := "009"%char.

(* ================================================================== *)
(** ** ai-tools/autocoder_utils/cli.py *)
(* ================================================================== *)

Module Cli.

(** What the helpers raise: [SystemExit(message)], or the ValueError of
    a tuple unpacking that finds too few values. *)
Inductive Exit : Type :=
| SystemExit (message : string)
| ValueError.

Section ParseTimeout.

(** Python's [int(str)] ([None]: it raises ValueError), [repr(str)] and
    [str(int)]; and [sys.argv]. *)
Variable int : string -> option Z.
Variable repr : string -> string.
Variable str : Z -> string.
Variable sys_argv : list string.

(** [return argv if argv is not None else sys.argv] *)
Definition _argv (argv : option (list string)) : list string :=
  match argv with
  | Some argv => argv
  | None => sys_argv
  end.

(** [try: timeout = int(value)
     except ValueError:
         raise SystemExit(f"Invalid timeout value: {value!r}")
     if timeout <= 0:
         raise SystemExit(
             f"Timeout must be greater than zero (got {timeout})")
     return timeout] *)
Definition _parse_timeout_value (value : string) : Exit + Z :=
  match int value with
  | None => inl (SystemExit ("Invalid timeout value: " +:+ repr value))
  | Some timeout =>
      if (timeout <=? 0)%Z then
        inl (SystemExit
               ("Timeout must be greater than zero (got " +:+ str timeout
                +:+ ")"))
      else inr timeout
  end.

(** The loop [while i < len(args)] of [_parse_timeout_arg]; [args] is
    the list from index [i] on.
    [arg = args[i]
     if arg.startswith("--timeout="):
         _, value = arg.split("=", 1)
         timeout = _parse_timeout_value(value)
     elif arg == "--timeout":
         if i + 1 >= len(args):
             raise SystemExit("Missing value for --timeout")
         i += 1
         timeout = _parse_timeout_value(args[i])
     else:
         parsed_args.append(arg)
     i += 1] *)
Fixpoint parse_timeout_loop (args parsed_args : list string) (timeout : Z)
  : Exit + (list string * Z) :=
  match args with
  | [] => inr (parsed_args, timeout)
  | arg :: rest =>
      if String.prefix "--timeout=" arg then
        match split_once "=" arg with
        | (_, Some value) =>
            match _parse_timeout_value value with
            | inl e => inl e
            | inr timeout => parse_timeout_loop rest parsed_args timeout
            end
        | (_, None) => inl ValueError
        end
      else if String.eqb arg "--timeout" then
        match rest with
        | [] => inl (SystemExit "Missing value for --timeout")
        | value :: rest =>
            match _parse_timeout_value value with
            | inl e => inl e
            | inr timeout => parse_timeout_loop rest parsed_args timeout
            end
        end
      else parse_timeout_loop rest (parsed_args ++ [arg]) timeout
  end.

(** [args = list(_argv(argv)); parsed_args = []; timeout = default;
     i = 0], the loop, and [return parsed_args, timeout]. *)
Definition _parse_timeout_arg (argv : option (list string)) (default : Z)
  : Exit + (list string * Z) :=
  parse_timeout_loop (_argv argv) [] default.

End ParseTimeout.

End Cli.

(* ================================================================== *)
(** ** ai-tools/autocoder_utils/gh_pr_helper.py *)
(* ================================================================== *)

Module GhPrHelper.

(** [parts = pr_path.strip("/").split("/")
     if len(parts) == 4 and parts[2] == "pull":
         owner, repo, _, pr_number = parts
         return owner, repo, pr_number
     raise ValueError(...)] *)
Definition parse_pr_path (pr_path : string)
  : Exn + (string * string * string) :=
  match split "/" (strip "/" pr_path) with
  | (owner, [repo; pull; pr_number]) =>
      if String.eqb pull "pull" then inr (owner, repo, pr_number)
      else inl (HostError "ValueError")
  | _ => inl (HostError "ValueError")
  end.

End GhPrHelper.

(* ================================================================== *)
(** ** ai-tools/autocoder_utils/change_tracker.py *)
(* ================================================================== *)

Module ChangeTracker.

(** The dictionary [get_git_stats] returns. *)
Record Stats : Type := MkStats {
  files_changed : nat;
  insertions : Z;
  deletions : Z
}.

(** An entry of the list [get_git_changes] returns. *)
Record Commit : Type := MkCommit {
  hash : string;
  date : string;
  author : string;
  message : string
}.

Section GitLog.

(** Python's [int(str)] ([None]: it raises ValueError) and
    [s.split()[0]], the first whitespace-separated word ([None]: there is
    none, IndexError). *)
Variable int : string -> option Z.
Variable first_word : string -> option string.

(** [try: n = int(raw)
     except ValueError: n = 0] *)
Definition int_or_zero (raw : string) : Z :=
  match int raw with
  | Some n => n
  | None => 0%Z
  end.

(** What one line of [git log --numstat] contributes, if anything:
    [if "\t" not in line: continue
     parts = line.split("\t", 2)
     if len(parts) != 3: continue
     insertions_raw, deletions_raw, path = parts
     if not path: continue]
    and the two conversions. *)
Definition numstat_entry (line : string) : option (Z * Z * string) :=
  if free_of tab line then None
  else
    match split_max tab 2 line with
    | (insertions_raw, [deletions_raw; path]) =>
        if String.eqb path EmptyString then None
        else Some (int_or_zero insertions_raw, int_or_zero deletions_raw,
                   path)
    | _ => None
    end.

(** The loop of [get_git_stats] over the lines:
    [files_touched.add(path)
     insertions_total += insertions
     deletions_total += deletions] *)
Fixpoint stats_loop (lines : list string) (files_touched : gset string)
  (insertions_total deletions_total : Z) : gset string * Z * Z :=
  match lines with
  | [] => (files_touched, insertions_total, deletions_total)
  | line :: rest =>
      match numstat_entry line with
      | None =>
          stats_loop rest files_touched insertions_total deletions_total
      | Some (insertions, deletions, path) =>
          stats_loop rest ({[path]} ∪ files_touched)
            (insertions_total + insertions) (deletions_total + deletions)
      end
  end.

(** [get_git_stats]: [stdout_lines] is [result.stdout.splitlines()] of
    the [git log] process, [None] when the process fails
    (CalledProcessError is caught and [None] is returned).  The result
    is [{"files_changed": len(files_touched), "insertions": ...,
    "deletions": ...}]. *)
Definition get_git_stats (stdout_lines : option (list string))
  : option Stats :=
  match stdout_lines with
  | None => None
  | Some lines =>
      let '(files_touched, insertions_total, deletions_total) :=
        stats_loop lines ∅ 0%Z 0%Z in
      Some (MkStats (size files_touched) insertions_total deletions_total)
  end.

(** The loop of [get_git_changes] over the lines:
    [if not line: continue
     parts = line.split("|", 3)
     if len(parts) == 4:
         commits.append({"hash": parts[0][:8],
                         "date": parts[1].split()[0],
                         "author": parts[2],
                         "message": parts[3]})] *)
Fixpoint changes_loop (lines : list string) (commits : list Commit)
  : Exn + list Commit :=
  match lines with
  | [] => inr commits
  | line :: rest =>
      if String.eqb line EmptyString then changes_loop rest commits
      else
        match split_max "|" 3 line with
        | (part0, [part1; part2; part3]) =>
            match first_word part1 with
            | None => inl (HostError "IndexError")
            | Some word =>
                changes_loop rest
                  (commits ++ [MkCommit (String.substring 0 8 part0) word
                                 part2 part3])
            end
        | _ => changes_loop rest commits
        end
  end.

(** [get_git_changes]: [stdout_lines] is
    [result.stdout.strip().split("\n")], [None] when the process fails
    and [None] is returned. *)
Definition get_git_changes (stdout_lines : option (list string))
  : Exn + option (list Commit) :=
  match stdout_lines with
  | None => inr None
  | Some lines =>
      match changes_loop lines [] with
      | inl e => inl e
      | inr commits => inr (Some commits)
      end
  end.

End GitLog.

End ChangeTracker.

(* ================================================================== *)
(** ** Vocabulary of the properties *)
(* ================================================================== *)

(** The left argument of a disjunction is an if-then: a compound [->] of
    two arguments. *)
Definition if_then_shape (t : Term) : Prop :=
  exists condition then_part, t = Compound "->" [condition; then_part].

(** The goal obtained by appending [extra] to the argument tuple of a
    callable body; an atom becomes a compound of the extra arguments. *)
Definition append_args (body : Term) (extra : list Term) : option Term :=
  match body with
  | Atom name => Some (Compound name extra)
  | Compound functor args => Some (Compound functor (args ++ extra))
  | _ => None
  end.

(** An atom or a compound term. *)
Definition callable (t : Term) : bool :=
  match t with
  | Atom _ | Compound _ _ => true
  | _ => false
  end.

Section PhraseVocabulary.
Context {W Subst : Type}.
Variable deref : Term -> Subst -> Term.
Variable predicate_defined : string -> nat -> W -> bool.
Variable solve : list Term -> Subst -> Gen W Subst.

(** What [phrase] does, in terms of the two extra arguments. *)
Definition phrase_behaviour (context : string) (extra : list Term)
  (Body : Term) (S : Subst) (w : W) : Step W Subst :=
  match deref Body S with
  | Var _ _ => Raised (instantiation_error context) w
  | Atom name =>
      if predicate_defined name (length extra) w
      then yield_from (solve [Compound name extra] S w)
             (fun w1 => Stopped w1) propagate
      else Raised (existence_error name (length extra) context) w
  | Compound functor args =>
      if predicate_defined functor (length (args ++ extra)) w
      then yield_from (solve [Compound functor (args ++ extra)] S w)
             (fun w1 => Stopped w1) propagate
      else Raised
             (existence_error functor (length (args ++ extra)) context) w
  | culprit => Raised (type_error "callable" culprit context) w
  end.

End PhraseVocabulary.

Section Tracing.
Context {W Subst : Type}.

(** A record of the engine calls a built-in makes: [Started goals subst]
    is logged when the generator [engine._solve_goals(goals, subst)]
    runs its first activation. *)
Inductive Call : Type :=
| Started (goals : list Term) (subst : Subst).

(** A generator over [W] run in a state that carries the log along. *)
Fixpoint lift_step (st : Step W Subst) (log : list Call)
  : Step (W * list Call) Subst :=
  match st with
  | Stopped w => Stopped (w, log)
  | Raised e w => Raised e (w, log)
  | Yielded s resume close w =>
      Yielded s
        (fun wl => lift_step (resume (fst wl)) (snd wl))
        (fun wl => let (w', r) := close (fst wl) in ((w', snd wl), r))
        (w, log)
  end.

(** The engine [solve], with every call logged. *)
Definition traced (solve : list Term -> Subst -> Gen W Subst)
  (goals : list Term) (subst : Subst) : Gen (W * list Call) Subst :=
  fun wl => lift_step (solve goals subst (fst wl))
              (snd wl ++ [Started goals subst]).

(** The state after a goal was run up to its first solution and its
    generator dropped; the resumption of the generator is not used. *)
Definition after_first_solution (st : Step W Subst) : W :=
  match st with
  | Yielded _ _ close w => finalize close w
  | Stopped w => w
  | Raised _ w => w
  end.

(** The activation ends in an exception. *)
Definition raises (st : Step W Subst) : Prop :=
  exists e w, st = Raised e w.

End Tracing.

(** The term thrown when the recursion limit is exceeded. *)
Definition depth_exceeded_ball : Term :=
  Compound "error"
    [Compound "resource_error" [Atom "recursion_depth_exceeded"];
     Compound "context" [Atom "call/1"]].

Definition depth_exceeded : Exn := PrologThrow depth_exceeded_ball.

(** A static predicate of one clause. *)
Definition fact (head : Term) : Predicate :=
  MkPredicate [(head, Atom "true")] false false false.

Definition rule (head body : Term) : Predicate :=
  MkPredicate [(head, body)] false false false.

(** [infinite :- infinite.] *)
Definition infinite_program : gmap (string * nat) Predicate :=
  {[ ("infinite", 0) := rule (Atom "infinite") (Atom "infinite") ]}.

(** The atoms z, sz, ssz, ... *)
Fixpoint level_name (j : nat) : string :=
  match j with
  | O => "z"
  | S j => String "s"%char (level_name j)
  end.

(** A program whose query [z] nests [k + 1] predicate calls:
    [z :- sz.  sz :- ssz.  ...  s^k z.] *)
Definition chain_predicate (k j : nat) : Predicate :=
  if Nat.ltb j k
  then rule (Atom (level_name j)) (Atom (level_name (S j)))
  else fact (Atom (level_name j)).

Definition chain_program (k : nat) : gmap (string * nat) Predicate :=
  list_to_map
    ((fun j => ((level_name j, 0), chain_predicate k j)) <$> seq 0 (S k)).

(** The names under which [ControlBuiltins.register] registers. *)
Definition control_names (name : string) : bool :=
  String.eqb name "=" || String.eqb name "\=" || String.eqb name "\+"
  || String.eqb name ";" || String.eqb name "->" || String.eqb name ","
  || String.eqb name "call" || String.eqb name "once"
  || String.eqb name "true" || String.eqb name "fail"
  || String.eqb name "setup_call_cleanup" || String.eqb name "call_cleanup".

Section DepthLimit.
Context {Subst : Type}.
Variable unify : Term -> Term -> Subst -> option Subst.
Variable deref : Term -> Subst -> Term.
Variable rename_clause : Term * Term -> Subst -> (Term * Term) * Subst.

(** What the programs above need of unification: section 4.1, "Atom vs
    atom: succeed iff names equal"; section 3, dereferencing stops at a
    non-variable; and a clause without variables is its own fresh copy. *)
Definition atoms_unify : Prop :=
  forall a b s,
    unify (Atom a) (Atom b) s = if String.eqb a b then Some s else None.

Definition nonvar_deref : Prop :=
  forall t s, class_of t <> VariableClass -> deref t s = t.

Definition atoms_rename : Prop :=
  forall a b s, rename_clause (Atom a, Atom b) s = ((Atom a, Atom b), s).

(** An interpreter as it is constructed: the control built-ins are
    registered, the program is consulted, the limit is configured. *)
Definition interpreter_of (program : gmap (string * nat) Predicate)
  (limit : nat) : Interpreter Subst :=
  MkInterpreter program (ControlBuiltins.register unify deref ∅) limit.

End DepthLimit.

Section CallVocabulary.
Context {Subst : Type}.
Variable deref : Term -> Subst -> Term.
Variable interpreter : Interpreter Subst.

(** The interpreter registered [call/1] of control.py. *)
Definition call_registered : Prop :=
  registry interpreter !! ("call", 1) =
  Some (fun solve => _builtin_call deref solve).

End CallVocabulary.

(** A thrown term [error(syntax_error(_), _)]. *)
Definition is_syntax_error (e : Exn) : Prop :=
  exists description context, e = syntax_error description context.

Definition is_clause (item : Item) : Prop :=
  match item with
  | Clause _ _ => True
  | Directive _ => False
  end.

(** [:- if(Condition).], [:- else.] and [:- endif.] *)
Definition if_ (condition : Term) : Item :=
  Directive (Compound "if" [condition]).

Definition else_ : Item := Directive (Atom "else").

Definition endif_ : Item := Directive (Atom "endif").

(** The predicate indicators under which [ControlBuiltins.register] and
    [DCGBuiltins.register] register, in the order of the calls. *)
Definition control_indicators : list (string * nat) :=
  [("=", 2); ("\=", 2); ("\+", 1); (";", 2); ("->", 2); (",", 2);
   ("call", 1); ("once", 1); ("true", 0); ("fail", 0);
   ("setup_call_cleanup", 3); ("call_cleanup", 2)].

Definition dcg_indicators : list (string * nat) :=
  [("phrase", 2); ("phrase", 3)].

(** A command-line argument that sets the timeout: [--timeout] or
    [--timeout=...]. *)
Definition timeout_option (arg : string) : bool :=
  String.prefix "--timeout=" arg || String.eqb arg "--timeout".

(** [owner/repo/pull/number] *)
Definition pr_path_of (owner repo pr_number : string) : string :=
  owner +:+ "/" +:+ repo +:+ "/pull/" +:+ pr_number.

(** Python's [sep.join(parts)]. *)
Fixpoint join (sep : ascii) (parts : list string) : string :=
  match parts with
  | [] => EmptyString
  | [part] => part
  | part :: rest => part +:+ String sep (join sep rest)
  end.

(** The numstat entries of a log, the files they name and the total of a
    column. *)
Definition numstat_entries (int : string -> option Z) (lines : list string)
  : list (Z * Z * string) :=
  omap (ChangeTracker.numstat_entry int) lines.

Definition touched (entries : list (Z * Z * string)) : gset string :=
  list_to_set (snd <$> entries).

Definition total (column : Z * Z * string -> Z)
  (entries : list (Z * Z * string)) : Z :=
  foldr (fun entry sum => (column entry + sum)%Z) 0%Z entries.

(** A line of [git log --pretty=format:%H|%ai|%an|%s]. *)
Definition commit_line (hash date author message : string) : string :=
  hash +:+ "|" +:+ date +:+ "|" +:+ author +:+ "|" +:+ message.

(* ================================================================== *)
(** ** A small engine for closed examples *)
(* ================================================================== *)

(** Substitutions are numbers, the engine state counts the activations
    it ran; [true] has one solution, [twice] has two (each solution adds
    to the substitution), [boom] raises, [defer] has one solution and a
    finalizer that adds 100 to the state when the generator is closed;
    every other goal fails. *)
Definition toy_name (goals : list Term) : string :=
  match goals with
  | [Atom name] => name
  | [Compound functor _] => functor
  | _ => EmptyString
  end.

Definition toy_solve (goals : list Term) (s : nat) : Gen nat nat :=
  fun w =>
    let name := toy_name goals in
    if String.eqb name "true" then iter [s] (S w)
    else if String.eqb name "twice" then iter [s + 1; s + 2] (S w)
    else if String.eqb name "boom" then
      Raised (PrologThrow (Atom "boom")) (S w)
    else if String.eqb name "defer" then
      Yielded s (fun w' => Stopped w') (fun w' => (100 + w', None)) (S w)
    else Stopped (S w).

Definition toy_unify (a b : Term) (s : nat) : option nat :=
  match a, b with
  | Atom x, Atom y => if String.eqb x y then Some s else None
  | Var _ _, _ => Some s
  | _, _ => None
  end.

Definition toy_rename (clause : Term * Term) (s : nat)
  : (Term * Term) * nat :=
  (clause, s).

Definition toy_defined (name : string) (arity : nat) (w : nat) : bool :=
  String.eqb name "twice" && Nat.eqb arity 2.

Definition toy_walk (t : Term) (_ : nat) : Term := t.

(** [p :- call(!).  p.] *)
Definition toy_program : gmap (string * nat) Predicate :=
  {[ ("p", 0) :=
       MkPredicate
         [(Atom "p", Compound "call" [Atom "!"]); (Atom "p", Atom "true")]
         false false false ]}.

Definition toy_interpreter : Interpreter nat :=
  interpreter_of toy_unify toy_walk toy_program 10.

Definition toy_has_solution (goal : Term)
  (_ : gmap (string * nat) Predicate) : bool :=
  match goal with
  | Atom name => String.eqb name "true"
  | _ => false
  end.

Definition toy_directive (_ : Term) (db : gmap (string * nat) Predicate)
  : Exn + gmap (string * nat) Predicate :=
  inr db.

(** Stand-ins for Python's [int], [repr], [str] and [s.split()[0]]. *)
Definition toy_int (s : string) : option Z :=
  if String.eqb s "30" then Some 30%Z
  else if String.eqb s "12" then Some 12%Z
  else if String.eqb s "0" then Some 0%Z
  else None.

Definition toy_repr (s : string) : string := "'" +:+ s +:+ "'".

Definition toy_str (z : Z) : string :=
  if Z.eqb z 0 then "0" else "30".

Definition toy_first_word (s : string) : option string :=
  match fst (split_once " " (lstrip " " s)) with
  | EmptyString => None
  | word => Some word
  end.

(* ################################################################## *)
(** * Properties *)
(* ################################################################## *)

(* ================================================================== *)
(** ** Generator algebra *)
(* ================================================================== *)

Section GeneratorFacts.
Context {W Subst : Type}.
Implicit Types (st : Step W Subst) (u : Unwind W) (n : nat).

Lemma consume_leave u pending w n :
  consume n (leave (Subst:=Subst) u pending w) =
  let (w', p) := u pending w in
  MkOutcome [] (match p with None => Exhausted | Some e => Failed e end) w'.
Proof.
  unfold leave. destruct (u pending w) as [w' [e|]]; destruct n; reflexivity.
Qed.

(** A [yield from] in a frame that has nothing else to do but unwind. *)
Lemma consume_yield_from_unwind st u :
  forall n,
    consume n (yield_from st (leave u None) u) = unwound u (consume n st).
Proof.
  induction st as [w|e w|s resume IH close w]; intros n.
  - simpl. rewrite consume_leave. unfold unwound. simpl.
    destruct (u None w) as [w' [e|]]; reflexivity.
  - simpl. rewrite consume_leave. unfold unwound. simpl.
    destruct (u (Some e) w) as [w' [e'|]]; reflexivity.
  - destruct n as [|n].
    + simpl. destruct (close w) as [w' r]. unfold unwound. simpl.
      destruct (u r w') as [w'' p]. reflexivity.
    + simpl. rewrite IH. unfold unwound. simpl.
      destruct (ending (consume n (resume w))).
      * destruct (u None _) as [w' p]. reflexivity.
      * destruct (u (Some e) _) as [w' p]. reflexivity.
      * destruct (u raised _) as [w' p]. reflexivity.
Qed.

Lemma outcome_eta (o : Outcome W Subst) :
  MkOutcome (yields o) (ending o) (final o) = o.
Proof. destruct o; reflexivity. Qed.

(** A [yield from] in tail position is the delegate itself. *)
Lemma consume_yield_from_tail st n :
  consume n (yield_from st (fun w => Stopped w) propagate) = consume n st.
Proof.
  change (fun w : W => Stopped (Subst:=Subst) w)
    with (leave (W:=W) (Subst:=Subst) propagate None).
  rewrite consume_yield_from_unwind. unfold unwound, propagate.
  destruct (consume n st) as [ys [|e|r] w]; reflexivity.
Qed.

Lemma consume_yield_from_seq st (next : Gen W Subst) :
  forall n,
    consume n (yield_from st next propagate) =
    followed_by n (consume n st) next.
Proof.
  induction st as [w|e w|s resume IH close w]; intros n.
  - unfold followed_by, prepend. simpl. rewrite Nat.sub_0_r.
    symmetry. apply outcome_eta.
  - destruct n; reflexivity.
  - destruct n as [|n].
    + simpl. destruct (close w) as [w' r]. reflexivity.
    + simpl. rewrite IH. unfold followed_by, prepend. simpl.
      destruct (consume n (resume w)) as [ys [|e|r] wf]; reflexivity.
Qed.

Lemma drain_yield_from_tail st :
  drain (yield_from st (fun w => Stopped w) propagate) = drain st.
Proof.
  induction st as [w|e w|s resume IH close w]; simpl; try reflexivity.
  rewrite IH. reflexivity.
Qed.

(** A consumer that asks often enough iterates to the end. *)
Lemma consume_drains st :
  exists n0, forall n, n0 <= n -> consume n st = drain st.
Proof.
  induction st as [w|e w|s resume IH close w].
  - exists 0. intros n _. destruct n; reflexivity.
  - exists 0. intros n _. destruct n; reflexivity.
  - destruct (IH w) as [n0 Hn0]. exists (S n0). intros n Hn.
    destruct n as [|n]; [lia|]. simpl. rewrite Hn0 by lia. reflexivity.
Qed.

Lemma drain_iter (l : list Subst) (w : W) :
  drain (iter l w) = MkOutcome l Exhausted w.
Proof.
  induction l as [|s l IH]; simpl; [reflexivity|]. rewrite IH. reflexivity.
Qed.

End GeneratorFacts.

(* ================================================================== *)
(** ** \=/2 and \+/1 *)
(* ================================================================== *)

Section NegationFacts.
Context {W Subst : Type}.
Variable unify : Term -> Term -> Subst -> option Subst.
Variable solve : list Term -> Subst -> Gen W Subst.

(** C10: for all terms A and B and every substitution S, [\=/2] hands back
    the failure signal exactly when [unify(A, B, S)] succeeds, and hands
    back S itself -- one solution, the substitution unchanged -- exactly
    when [unify(A, B, S)] fails; it never hands back any other
    substitution. *)
Theorem not_unifiable_leaves_substitution (A B : Term) (S : Subst) (w : W) :
  (_builtin_not_unifiable unify [A; B] S = inr None
     <-> unify A B S <> None)
  /\ (_builtin_not_unifiable unify [A; B] S = inr (Some S)
     <-> unify A B S = None)
  /\ (forall r, _builtin_not_unifiable unify [A; B] S = inr (Some r)
        -> r = S)
  /\ drain (of_result (_builtin_not_unifiable unify [A; B] S) w) =
     match unify A B S with
     | Some _ => MkOutcome [] Exhausted w
     | None => MkOutcome [S] Exhausted w
     end.
Proof.
  unfold _builtin_not_unifiable.
  destruct (unify A B S) as [s'|]; simpl; repeat split;
    try congruence; intros; congruence.
Qed.

(** An exception inside [\=/2] arises only from a short argument tuple. *)
Lemma not_unifiable_arity (args : list Term) (S : Subst) e :
  _builtin_not_unifiable unify args S = inl e ->
  length args < 2 /\ e = HostError "IndexError".
Proof.
  unfold _builtin_not_unifiable.
  destruct args as [|a0 [|a1 rest]]; intros [= <-]; simpl; split;
    (lia || reflexivity).
Qed.

(** C3: for every goal G and substitution S, if G has at least one
    solution under S then [\+ G] yields no solution, and if G finitely
    fails then [\+ G] yields exactly one solution, the original S; the
    substitution that G's solution carried is not used. *)
Theorem negation_as_failure_spec (G : Term) (S : Subst) (w : W) :
  (yields (drain (solve [G] S w)) <> [] ->
     drain (of_call (_negation_as_failure solve [G] S) w) =
     MkOutcome [] Exhausted (final (consume 0 (solve [G] S w))))
  /\ (forall w1,
        drain (solve [G] S w) = MkOutcome [] Exhausted w1 ->
        drain (of_call (_negation_as_failure solve [G] S) w) =
        MkOutcome [S] Exhausted w1).
Proof.
  unfold of_call, _negation_as_failure.
  destruct (solve [G] S w) as [w1|e w1|s resume close w1]; simpl; split.
  - intros H; congruence.
  - intros w2 H. congruence.
  - intros H; congruence.
  - intros w2 H; congruence.
  - intros _. unfold finalize. destruct (close w1); reflexivity.
  - intros w2 H; congruence.
Qed.

(** An exception of G passes through [\+ G]. *)
Lemma negation_as_failure_raises (G : Term) (S : Subst) (w : W) e w1 :
  solve [G] S w = Raised e w1 ->
  of_call (_negation_as_failure solve [G] S) w = Raised e w1.
Proof. unfold of_call, _negation_as_failure. intros ->. reflexivity. Qed.

End NegationFacts.

Lemma not_unifiable_leaves_substitution_witness :
  _builtin_not_unifiable toy_unify [Atom "a"; Atom "a"] 7 = inr None
  /\ _builtin_not_unifiable toy_unify [Atom "a"; Atom "b"] 7 = inr (Some 7).
Proof.
  split.
  - apply (proj1 (not_unifiable_leaves_substitution toy_unify
                    (Atom "a") (Atom "a") 7 0)).
    discriminate.
  - apply (proj1 (proj2 (not_unifiable_leaves_substitution toy_unify
                           (Atom "a") (Atom "b") 7 0))).
    reflexivity.
Defined.

Lemma negation_as_failure_spec_witness :
  drain (of_call (_negation_as_failure toy_solve [Atom "twice"] 7) 0) =
    MkOutcome [] Exhausted 1
  /\ drain (of_call (_negation_as_failure toy_solve [Atom "fail"] 7) 0) =
    MkOutcome [7] Exhausted 1.
Proof.
  split.
  - apply (proj1 (negation_as_failure_spec toy_solve (Atom "twice") 7 0)).
    vm_compute. discriminate.
  - apply (proj2 (negation_as_failure_spec toy_solve (Atom "fail") 7 0)).
    reflexivity.
Defined.

(* ================================================================== *)
(** ** ;/2 *)
(* ================================================================== *)

Section DisjunctionFacts.
Context {W Subst : Type}.
Variable solve : list Term -> Subst -> Gen W Subst.

Lemma disjunction_plain (Left Right : Term) (S : Subst) (w : W) :
  ~ if_then_shape Left ->
  _builtin_disjunction solve [Left; Right] S w =
  yield_from (solve [Left] S w)
    (fun w1 => yield_from (solve [Right] S w1) (fun w2 => Stopped w2) propagate)
    propagate.
Proof.
  intros Hshape. unfold _builtin_disjunction.
  destruct Left as [| | |functor [|c [|t [|x rest]]]|]; try reflexivity.
  destruct (String.eqb functor "->") eqn:E; [|reflexivity].
  apply String.eqb_eq in E. subst functor.
  exfalso. apply Hshape. exists c, t. reflexivity.
Qed.

(** C1: for a goal [(Cond -> Then ; Else)] given to [;/2] under S, only
    the first solution of Cond is used (its resumption is dropped): if
    Cond has a solution, the disjunction yields what Then yields under
    that first substitution; if Cond has none, it yields what Else yields
    under S; and when the left argument is not a [->/2] compound, it
    yields the solutions of the left disjunct followed by those of the
    right disjunct, both under S.  This holds for every consumer, whether
    it iterates to the end or closes the generator after [n] steps. *)
Theorem disjunction_spec (Cond Then Else : Term) (S : Subst) (w : W) :
  (forall s1 resume close w1,
      solve [Cond] S w = Yielded s1 resume close w1 ->
      forall n,
        consume n
          (_builtin_disjunction solve [Compound "->" [Cond; Then]; Else] S w)
        = with_final (finalize close) (consume n (solve [Then] s1 w1)))
  /\ (forall w1,
      solve [Cond] S w = Stopped w1 ->
      forall n,
        consume n
          (_builtin_disjunction solve [Compound "->" [Cond; Then]; Else] S w)
        = consume n (solve [Else] S w1))
  /\ (forall Left Right,
      ~ if_then_shape Left ->
      forall n,
        consume n (_builtin_disjunction solve [Left; Right] S w)
        = followed_by n (consume n (solve [Left] S w)) (solve [Right] S)).
Proof.
  split; [|split].
  - intros s1 resume close w1 H n. simpl. rewrite H.
    rewrite consume_yield_from_unwind. unfold unwound, with_final, dropping.
    destruct (consume n (solve [Then] s1 w1)) as [ys [|e|r] wf]; reflexivity.
  - intros w1 H n. simpl. rewrite H. apply consume_yield_from_tail.
  - intros Left Right Hshape n. rewrite disjunction_plain by assumption.
    rewrite consume_yield_from_seq. unfold followed_by.
    destruct (ending (consume n (solve [Left] S w))); try reflexivity.
    rewrite consume_yield_from_tail. reflexivity.
Qed.

(** An exception of Cond passes through the if-then-else. *)
Lemma disjunction_condition_raises (Cond Then Else : Term) (S : Subst)
  (w : W) e w1 :
  solve [Cond] S w = Raised e w1 ->
  _builtin_disjunction solve [Compound "->" [Cond; Then]; Else] S w =
  Raised e w1.
Proof. intros H. simpl. rewrite H. reflexivity. Qed.

End DisjunctionFacts.

Lemma disjunction_spec_witness :
  consume 5
    (_builtin_disjunction toy_solve
       [Compound "->" [Atom "defer"; Atom "twice"]; Atom "true"] 0 0)
  = MkOutcome [1; 2] Exhausted 102
  /\ consume 5
    (_builtin_disjunction toy_solve
       [Compound "->" [Atom "fail"; Atom "twice"]; Atom "true"] 0 0)
  = MkOutcome [0] Exhausted 2
  /\ consume 5
    (_builtin_disjunction toy_solve [Atom "twice"; Atom "true"] 0 0)
  = MkOutcome [1; 2; 0] Exhausted 2.
Proof.
  split; [|split].
  - exact (eq_trans
             (proj1 (disjunction_spec toy_solve (Atom "defer") (Atom "twice")
                       (Atom "true") 0 0)
                0 _ _ 1 eq_refl 5)
             eq_refl).
  - exact (eq_trans
             (proj1 (proj2 (disjunction_spec toy_solve (Atom "fail")
                              (Atom "twice") (Atom "true") 0 0))
                1 eq_refl 5)
             eq_refl).
  - refine (eq_trans
              (proj2 (proj2 (disjunction_spec toy_solve (Atom "fail")
                               (Atom "twice") (Atom "true") 0 0))
                 (Atom "twice") (Atom "true") _ 5)
              eq_refl).
    intros (c & t & H). discriminate H.
Defined.

(* ================================================================== *)
(** ** phrase/2 and phrase/3 *)
(* ================================================================== *)

Section PhraseFacts.
Context {W Subst : Type}.
Variable deref : Term -> Subst -> Term.
Variable predicate_defined : string -> nat -> W -> bool.
Variable solve : list Term -> Subst -> Gen W Subst.

Local Abbreviation behaviour :=
  (phrase_behaviour deref predicate_defined solve).

Lemma phrase_2_behaviour (Body L : Term) (S : Subst) (w : W) :
  _builtin_phrase_2 deref predicate_defined solve [Body; L] S w =
  behaviour "phrase/2" [L; PList [] None] Body S w.
Proof.
  unfold _builtin_phrase_2, phrase_behaviour, _check_instantiated,
    _check_type, _check_predicate_exists.
  destruct (deref Body S) as [name|v|x i|functor args|es tl]; simpl;
    try reflexivity.
  - destruct (predicate_defined name 2 w); reflexivity.
  - destruct (predicate_defined functor _ w); reflexivity.
Qed.

Lemma phrase_3_behaviour (Body L Rest : Term) (S : Subst) (w : W) :
  _builtin_phrase_3 deref predicate_defined solve [Body; L; Rest] S w =
  behaviour "phrase/3" [L; Rest] Body S w.
Proof.
  unfold _builtin_phrase_3, phrase_behaviour, _check_instantiated,
    _check_type, _check_predicate_exists.
  destruct (deref Body S) as [name|v|x i|functor args|es tl]; simpl;
    try reflexivity.
  - destruct (predicate_defined name 2 w); reflexivity.
  - destruct (predicate_defined functor _ w); reflexivity.
Qed.

Lemma phrase_behaviour_expands context extra Body S w goal name arity :
  append_args (deref Body S) extra = Some goal ->
  goal_indicator goal = Some (name, arity) ->
  (predicate_defined name arity w = true ->
     forall n, consume n (behaviour context extra Body S w) =
               consume n (solve [goal] S w))
  /\ (predicate_defined name arity w = false ->
     behaviour context extra Body S w =
     Raised (existence_error name arity context) w).
Proof.
  unfold phrase_behaviour, append_args.
  destruct (deref Body S) as [a|v|x i|functor args|es tl]; try discriminate;
    intros [= <-]; simpl; intros [= <- <-]; split; intros ->;
    try reflexivity; intros n; apply consume_yield_from_tail.
Qed.

Lemma phrase_behaviour_rejects context extra Body S w :
  (forall x i, deref Body S = Var x i ->
     behaviour context extra Body S w =
     Raised (instantiation_error context) w)
  /\ (callable (deref Body S) = false ->
      (forall x i, deref Body S <> Var x i) ->
     behaviour context extra Body S w =
     Raised (type_error "callable" (deref Body S) context) w).
Proof.
  unfold phrase_behaviour.
  destruct (deref Body S) as [a|v|x i|functor args|es tl]; simpl; split;
    try discriminate; try reflexivity; intros; try congruence.
Qed.

(** C6: for [phrase(Body, List)] with Body dereferencing to an atom or a
    compound whose expansion names a defined predicate, the generator
    behaves, for every consumer, as the goal obtained by appending
    [(List, [])] to Body's arguments, and [phrase(Body, List, Rest)] as
    the goal obtained by appending [(List, Rest)]; an unbound Body raises
    [instantiation_error], a Body that is neither atom nor compound raises
    [type_error(callable, Body)], and an expansion that names an undefined
    predicate raises [existence_error(procedure, Name/Arity)] in the first
    activation, before any solution. *)
Theorem phrase_spec (Body L Rest : Term) (S : Subst) (w : W) :
  let phrase2 := _builtin_phrase_2 deref predicate_defined solve [Body; L] in
  let phrase3 :=
    _builtin_phrase_3 deref predicate_defined solve [Body; L; Rest] in
  (forall goal name arity,
      append_args (deref Body S) [L; PList [] None] = Some goal ->
      goal_indicator goal = Some (name, arity) ->
      (predicate_defined name arity w = true ->
         forall n, consume n (phrase2 S w) = consume n (solve [goal] S w))
      /\ (predicate_defined name arity w = false ->
         phrase2 S w = Raised (existence_error name arity "phrase/2") w))
  /\ (forall goal name arity,
      append_args (deref Body S) [L; Rest] = Some goal ->
      goal_indicator goal = Some (name, arity) ->
      (predicate_defined name arity w = true ->
         forall n, consume n (phrase3 S w) = consume n (solve [goal] S w))
      /\ (predicate_defined name arity w = false ->
         phrase3 S w = Raised (existence_error name arity "phrase/3") w))
  /\ (forall x i,
      deref Body S = Var x i ->
      phrase2 S w = Raised (instantiation_error "phrase/2") w
      /\ phrase3 S w = Raised (instantiation_error "phrase/3") w)
  /\ (callable (deref Body S) = false ->
      (forall x i, deref Body S <> Var x i) ->
      phrase2 S w =
        Raised (type_error "callable" (deref Body S) "phrase/2") w
      /\ phrase3 S w =
        Raised (type_error "callable" (deref Body S) "phrase/3") w).
Proof.
  intros phrase2 phrase3. subst phrase2 phrase3.
  rewrite phrase_2_behaviour, phrase_3_behaviour.
  repeat split.
  - eapply phrase_behaviour_expands; eassumption.
  - eapply phrase_behaviour_expands; eassumption.
  - eapply phrase_behaviour_expands; eassumption.
  - eapply phrase_behaviour_expands; eassumption.
  - eapply phrase_behaviour_rejects; eassumption.
  - eapply phrase_behaviour_rejects; eassumption.
  - eapply phrase_behaviour_rejects; eassumption.
  - eapply phrase_behaviour_rejects; eassumption.
Qed.

End PhraseFacts.

Lemma phrase_spec_witness :
  consume 5
    (_builtin_phrase_2 toy_walk toy_defined toy_solve
       [Atom "twice"; Atom "input"] 0 0)
  = MkOutcome [1; 2] Exhausted 1
  /\ _builtin_phrase_3 toy_walk toy_defined toy_solve
       [Compound "twice" [Atom "x"]; Atom "input"; Atom "rest"] 0 0
  = Raised (existence_error "twice" 3 "phrase/3") 0
  /\ _builtin_phrase_2 toy_walk toy_defined toy_solve
       [Var "X" 1; Atom "input"] 0 0
  = Raised (instantiation_error "phrase/2") 0
  /\ _builtin_phrase_3 toy_walk toy_defined toy_solve
       [Number (PInt 3); Atom "input"; Atom "rest"] 0 0
  = Raised (type_error "callable" (Number (PInt 3)) "phrase/3") 0.
Proof.
  split; [|split; [|split]].
  - pose proof (phrase_spec toy_walk toy_defined toy_solve
                  (Atom "twice") (Atom "input") (Atom "rest") 0 0) as H.
    cbv zeta in H. destruct H as (H & _).
    destruct (H _ "twice" 2 eq_refl eq_refl) as (Hdef & _).
    rewrite (Hdef eq_refl 5). reflexivity.
  - pose proof (phrase_spec toy_walk toy_defined toy_solve
                  (Compound "twice" [Atom "x"]) (Atom "input") (Atom "rest")
                  0 0) as H.
    cbv zeta in H. destruct H as (_ & H & _).
    destruct (H _ "twice" 3 eq_refl eq_refl) as (_ & Hundef).
    exact (Hundef eq_refl).
  - pose proof (phrase_spec toy_walk toy_defined toy_solve
                  (Var "X" 1) (Atom "input") (Atom "rest") 0 0) as H.
    cbv zeta in H. destruct H as (_ & _ & H & _).
    exact (proj1 (H "X" 1 eq_refl)).
  - pose proof (phrase_spec toy_walk toy_defined toy_solve
                  (Number (PInt 3)) (Atom "input") (Atom "rest") 0 0) as H.
    cbv zeta in H. destruct H as (_ & _ & _ & H).
    refine (proj2 (H eq_refl _)). intros x i E. discriminate E.
Defined.

(* ================================================================== *)
(** ** setup_call_cleanup/3 and call_cleanup/2 *)
(* ================================================================== *)

Section CleanupFacts.
Context {W Subst : Type}.
Variable deref : Term -> Subst -> Term.
Variable solve : list Term -> Subst -> Gen W Subst.
Implicit Types (log : list (Call (Subst:=Subst))).

Lemma traced_start (goals : list Term) (s : Subst) (w : W) log :
  traced solve goals s (w, log) =
  lift_step (solve goals s w) (log ++ [Started goals s]).
Proof. reflexivity. Qed.

Lemma consume_lift_step (st : Step W Subst) :
  forall n log,
    consume n (lift_step st log) =
    MkOutcome (yields (consume n st)) (ending (consume n st))
      (final (consume n st), log).
Proof.
  induction st as [w|e w|s resume IH close w]; intros n log;
    try reflexivity.
  destruct n as [|n]; simpl.
  - destruct (close w) as [w' r]. reflexivity.
  - rewrite IH. reflexivity.
Qed.

Lemma call_cleanup_once_traced (cleanup : Term) (s : Subst) (w : W) log :
  call_cleanup_once (traced solve) cleanup s (w, log) =
  ((fst (call_cleanup_once solve cleanup s w),
    log ++ [Started [cleanup] s]),
   snd (call_cleanup_once solve cleanup s w)).
Proof.
  unfold call_cleanup_once, traced. simpl.
  destruct (solve [cleanup] s w) as [w1|e w1|s1 resume close w1]; simpl;
    try reflexivity.
  unfold finalize. simpl. destruct (close w1); reflexivity.
Qed.

Lemma call_cleanup_once_state (cleanup : Term) (s : Subst) (w : W) :
  fst (call_cleanup_once solve cleanup s w) =
  after_first_solution (solve [cleanup] s w).
Proof.
  unfold call_cleanup_once.
  destruct (solve [cleanup] s w); reflexivity.
Qed.

Lemma call_cleanup_once_quiet (cleanup : Term) (s : Subst) (w : W) :
  ~ raises (solve [cleanup] s w) ->
  snd (call_cleanup_once solve cleanup s w) = None.
Proof.
  unfold call_cleanup_once, raises.
  destruct (solve [cleanup] s w) as [w1|e w1|s1 resume close w1];
    try reflexivity.
  intros H. exfalso. apply H. eauto.
Qed.

Lemma yields_unwound (u : Unwind W) (o : Outcome W Subst) :
  yields (unwound u o) = yields o.
Proof.
  unfold unwound. destruct (ending o).
  - destruct (u None (final o)); reflexivity.
  - destruct (u (Some e) (final o)); reflexivity.
  - destruct (u raised (final o)); reflexivity.
Qed.


End CleanupFacts.

Section CleanupOutcome.
Context {W Subst : Type}.
Variable deref : Term -> Subst -> Term.
Variable solve : list Term -> Subst -> Gen W Subst.

Lemma finally_quiet (cleanup : W -> W * option Exn) pending (w : W) :
  snd (cleanup w) = None ->
  finally_ cleanup pending w = (fst (cleanup w), pending).
Proof.
  unfold finally_. destruct (cleanup w) as [w' [e|]]; simpl; congruence.
Qed.

Lemma unwound_quiet (u : Unwind W) (f : W -> W) (o : Outcome W Subst) :
  (forall pending, u pending (final o) = (f (final o), pending)) ->
  unwound u o = with_final f o.
Proof.
  intros H. unfold unwound, with_final.
  destruct o as [ys [|e|r] wf]; simpl in *; rewrite H; reflexivity.
Qed.

(** C9: in [setup_call_cleanup/3] and [call_cleanup/2] the Cleanup goal is
    run up to its first solution only -- the state afterwards is that of
    [after_first_solution], which drops the generator without resuming
    it -- and its outcome is ignored: the solutions yielded are those of
    Goal whatever Cleanup does, and when Cleanup fails or succeeds (does
    not raise) the run ends exactly as Goal's own run ends, with no error
    on account of Cleanup. *)
Theorem cleanup_outcome_ignored
  (Setup Goal Cleanup : Term) (S : Subst) (w : W) (n : nat) :
  (forall s1 resume close w1,
      solve [deref Setup S] S w = Yielded s1 resume close w1 ->
      let o := consume n (solve [deref Goal S] s1 w1) in
      let run :=
        consume n
          (_builtin_setup_call_cleanup deref solve
             [Setup; Goal; Cleanup] S w) in
      yields run = yields o
      /\ (~ raises (solve [deref Cleanup S] s1 (final o)) ->
          run =
          with_final
            (fun w' =>
               finalize close
                 (after_first_solution (solve [deref Cleanup S] s1 w')))
            o))
  /\ (let o := consume n (solve [deref Goal S] S w) in
      let run :=
        consume n (_builtin_call_cleanup deref solve [Goal; Cleanup] S w) in
      yields run = yields o
      /\ (~ raises (solve [deref Cleanup S] S (final o)) ->
          run =
          with_final
            (fun w' => after_first_solution (solve [deref Cleanup S] S w'))
            o)).
Proof.
  split.
  - intros s1 resume close w1 H o run. subst o run.
    unfold _builtin_setup_call_cleanup. rewrite H.
    rewrite consume_yield_from_unwind. split.
    + apply yields_unwound.
    + intros Hquiet. apply unwound_quiet. intros pending.
      unfold unwind_then, dropping.
      rewrite finally_quiet by (apply call_cleanup_once_quiet; exact Hquiet).
      rewrite call_cleanup_once_state. reflexivity.
  - intros o run. subst o run. unfold _builtin_call_cleanup.
    rewrite consume_yield_from_unwind. split.
    + apply yields_unwound.
    + intros Hquiet. apply unwound_quiet. intros pending.
      rewrite finally_quiet by (apply call_cleanup_once_quiet; exact Hquiet).
      rewrite call_cleanup_once_state. reflexivity.
Qed.

(** X15: [call_cleanup(Goal, Cleanup)] makes two engine calls on every
    path -- Goal exhausted, closed early, failing or raising --: Goal,
    then Cleanup once, both dereferenced and both under the caller's
    substitution. *)
Lemma call_cleanup_runs_cleanup_once (Goal Cleanup : Term) (S : Subst)
  (w : W) (n : nat) :
  snd (final
         (consume n
            (_builtin_call_cleanup deref (traced solve)
               [Goal; Cleanup] S (w, [])))) =
  [Started [deref Goal S] S; Started [deref Cleanup S] S].
Proof.
  unfold _builtin_call_cleanup.
  rewrite consume_yield_from_unwind, traced_start, consume_lift_step.
  set (o := consume n (solve [deref Goal S] S w)).
  unfold unwound, finally_. simpl.
  destruct (ending o); simpl; rewrite call_cleanup_once_traced;
    destruct (snd (call_cleanup_once solve (deref Cleanup S) S (final o)));
    reflexivity.
Qed.

End CleanupOutcome.


Lemma cleanup_outcome_ignored_witness :
  consume 5
    (_builtin_setup_call_cleanup toy_walk toy_solve
       [Atom "true"; Atom "twice"; Atom "fail"] 0 0)
  = MkOutcome [1; 2] Exhausted 3
  /\ consume 5
    (_builtin_setup_call_cleanup toy_walk toy_solve
       [Atom "true"; Atom "twice"; Atom "twice"] 0 0)
  = MkOutcome [1; 2] Exhausted 3
  /\ consume 5
    (_builtin_call_cleanup toy_walk toy_solve
       [Atom "twice"; Atom "defer"] 0 0)
  = MkOutcome [1; 2] Exhausted 102.
Proof.
  split; [|split].
  - refine (eq_trans
              (proj2 (proj1 (cleanup_outcome_ignored toy_walk toy_solve
                               (Atom "true") (Atom "twice") (Atom "fail")
                               0 0 5)
                        0 _ _ 1 eq_refl) _)
              eq_refl).
    intros (e & w & H). discriminate H.
  - refine (eq_trans
              (proj2 (proj1 (cleanup_outcome_ignored toy_walk toy_solve
                               (Atom "true") (Atom "twice") (Atom "twice")
                               0 0 5)
                        0 _ _ 1 eq_refl) _)
              eq_refl).
    intros (e & w & H). discriminate H.
  - refine (eq_trans
              (proj2 (proj2 (cleanup_outcome_ignored toy_walk toy_solve
                               (Atom "true") (Atom "twice") (Atom "defer")
                               0 0 5)) _)
              eq_refl).
    intros (e & w & H). discriminate H.
Defined.

(* ================================================================== *)
(** ** The recursion limit *)
(* ================================================================== *)

Lemma level_name_inj : Inj (=) (=) level_name.
Proof.
  intros i. induction i as [|i IH]; intros [|j] H; simpl in H;
    try discriminate; try reflexivity.
  f_equal. apply IH. congruence.
Qed.

Lemma chain_program_lookup (k j : nat) :
  j <= k ->
  chain_program k !! (level_name j, 0) = Some (chain_predicate k j).
Proof.
  intros Hj. unfold chain_program.
  apply elem_of_list_to_map_1.
  - rewrite <- list_fmap_compose.
    apply NoDup_fmap_2; [|apply NoDup_seq].
    intros a b [= H]. apply level_name_inj. exact H.
  - apply list_elem_of_fmap. exists j. split; [reflexivity|].
    apply elem_of_seq. lia.
Qed.

Section ResolverFacts.
Context {Subst : Type}.
Variable unify : Term -> Term -> Subst -> option Subst.
Variable deref : Term -> Subst -> Term.
Variable rename_clause : Term * Term -> Subst -> (Term * Term) * Subst.
Variable interpreter : Interpreter Subst.

Local Abbreviation resolve :=
  (solve unify deref rename_clause interpreter).

(** Item 9: a goal that is neither a control construct nor a built-in is
    resolved against the clauses of its predicate. *)
Lemma solve_goal_predicate
  (rec rec' : list Term -> Subst -> Answers Subst) depth goal rest s
  name arity :
  goal_indicator goal = Some (name, arity) ->
  control_construct name arity = false ->
  registry interpreter !! (name, arity) = None ->
  solve_goal unify deref rename_clause interpreter rec rec' depth goal rest s
  = solve_predicate unify rename_clause interpreter rec rec' depth
      name arity goal rest s.
Proof.
  intros Hind Hctl Hreg. unfold control_construct in Hctl.
  repeat (apply orb_false_elim in Hctl as [Hctl ?]).
  unfold solve_goal. rewrite Hind. cbv zeta.
  repeat match goal with H : is_goal _ _ _ _ = false |- _ =>
    rewrite H; clear H end.
  simpl. rewrite Hreg. reflexivity.
Qed.

(** Item 8: a goal that names a registered built-in is dispatched. *)
Lemma solve_goal_builtin
  (rec rec' : list Term -> Subst -> Answers Subst) depth goal rest s
  name arity builtin :
  goal_indicator goal = Some (name, arity) ->
  control_construct name arity = false ->
  registry interpreter !! (name, arity) = Some builtin ->
  solve_goal unify deref rename_clause interpreter rec rec' depth goal rest s
  = solve_builtin rec builtin (goal_args goal) rest s.
Proof.
  intros Hind Hctl Hreg. unfold control_construct in Hctl.
  repeat (apply orb_false_elim in Hctl as [Hctl ?]).
  unfold solve_goal. rewrite Hind. cbv zeta.
  repeat match goal with H : is_goal _ _ _ _ = false |- _ =>
    rewrite H; clear H end.
  simpl. rewrite Hreg. reflexivity.
Qed.

Lemma solve_cons fuel depth g rest s :
  resolve (S fuel) depth (g :: rest) s =
  solve_goal unify deref rename_clause interpreter
    (resolve fuel depth) (resolve fuel (S depth)) depth (deref g s) rest s.
Proof. reflexivity. Qed.

Lemma solve_catch_goal fuel depth protected catcher handler rest s :
  nonvar_deref deref ->
  resolve (S fuel) depth
    (Compound "catch" [protected; catcher; handler] :: rest) s =
  solve_catch unify (resolve fuel depth) [protected; catcher; handler] rest s.
Proof. intros Hderef. simpl. rewrite Hderef by discriminate. reflexivity. Qed.

Lemma solve_nil fuel depth s :
  resolve (S fuel) depth [] s = More s (Done false).
Proof. reflexivity. Qed.

Lemma barrier_idemp (a : Answers Subst) : barrier (barrier a) = barrier a.
Proof. induction a; simpl; congruence. Qed.

Lemma or_else_done (a : Answers Subst) :
  cut_signal a = false -> or_else a (Done false) = a.
Proof.
  induction a as [c|e|s a IH]; simpl; intros H.
  - subst c. reflexivity.
  - reflexivity.
  - rewrite IH by exact H. reflexivity.
Qed.

Lemma cut_signal_barrier (a : Answers Subst) : cut_signal (barrier a) = false.
Proof. induction a; simpl; auto. Qed.

Lemma barrier_no_cut (a : Answers Subst) :
  cut_signal a = false -> barrier a = a.
Proof.
  induction a as [c|e|s a IH]; simpl; intros H.
  - subst c. reflexivity.
  - reflexivity.
  - rewrite IH by exact H. reflexivity.
Qed.

(** Followed by an empty goal list, the answers are unchanged. *)
Lemma and_then_return (a : Answers Subst) :
  and_then a (fun s => More s (Done false)) = a.
Proof.
  induction a as [c|e|s a IH]; simpl; try reflexivity.
  rewrite IH. reflexivity.
Qed.

End ResolverFacts.

Section DepthLimitFacts.
Context {Subst : Type}.
Variable unify : Term -> Term -> Subst -> option Subst.
Variable deref : Term -> Subst -> Term.
Variable rename_clause : Term * Term -> Subst -> (Term * Term) * Subst.

Local Abbreviation interp := (interpreter_of unify deref).
Local Abbreviation run program limit :=
  (solve unify deref rename_clause (interp program limit)).

Lemma unregistered (name : string) (arity : nat) :
  control_names name = false ->
  ControlBuiltins.register unify deref (W:=unit) ∅ !! (name, arity) = None.
Proof.
  unfold control_names, ControlBuiltins.register, register_builtin.
  intros H.
  repeat (apply orb_false_elim in H as [H ?]).
  repeat match goal with E : String.eqb _ _ = false |- _ =>
    apply String.eqb_neq in E end.
  repeat (rewrite lookup_insert_ne by congruence).
  apply lookup_empty.
Qed.

(** A call of a predicate with a single, variable-free clause whose head
    is the goal itself. *)
Lemma solve_single_clause program limit fuel depth name body rest s :
  atoms_unify unify -> nonvar_deref deref -> atoms_rename rename_clause ->
  control_construct name 0 = false ->
  control_names name = false ->
  program !! (name, 0) = Some (rule (Atom name) (Atom body)) ->
  run program limit (S fuel) depth (Atom name :: rest) s =
  if Nat.ltb limit (S depth) then Abort depth_exceeded
  else and_then
         (or_else_clause (run program limit fuel (S depth) [Atom body] s)
            (Done false))
         (run program limit fuel depth rest).
Proof.
  intros Hunify Hderef Hrename Hctl Hnames Hdb. simpl.
  rewrite Hderef by discriminate.
  erewrite solve_goal_predicate;
    [|reflexivity|exact Hctl|apply unregistered; exact Hnames].
  unfold solve_predicate. simpl. rewrite Hdb. simpl.
  destruct (Nat.ltb limit (S depth)); [reflexivity|].
  rewrite Hrename, Hunify, String.eqb_refl. reflexivity.
Qed.

Lemma level_name_plain (j : nat) :
  control_construct (level_name j) 0 = false
  /\ control_names (level_name j) = false.
Proof. destruct j as [|[|j]]; split; reflexivity. Qed.

(** [infinite :- infinite.] reaches the limit before the host gives up,
    provided the host allows one more nested call than the limit. *)
Lemma infinite_exceeds limit n :
  atoms_unify unify -> nonvar_deref deref -> atoms_rename rename_clause ->
  forall depth fuel s,
    depth + n = limit -> n < fuel ->
    run infinite_program limit fuel depth [Atom "infinite"] s =
    Abort depth_exceeded.
Proof.
  intros Hunify Hderef Hrename.
  induction n as [|n IH]; intros depth fuel s Hlimit Hfuel;
    (destruct fuel as [|fuel]; [lia|]);
    rewrite solve_single_clause with (body:="infinite")
      by (assumption || reflexivity).
  - replace (Nat.ltb limit (S depth)) with true
      by (symmetry; apply Nat.ltb_lt; lia).
    reflexivity.
  - replace (Nat.ltb limit (S depth)) with false
      by (symmetry; apply Nat.ltb_ge; lia).
    rewrite IH by lia. reflexivity.
Qed.

(** The chain program nests as many calls as it has levels left. *)
Lemma chain_descends k limit m :
  atoms_unify unify -> nonvar_deref deref -> atoms_rename rename_clause ->
  forall j depth fuel s,
    j + m = k -> m + 3 <= fuel ->
    run (chain_program k) limit fuel depth [Atom (level_name j)] s =
    if Nat.leb (depth + m + 1) limit then More s (Done false)
    else Abort depth_exceeded.
Proof.
  intros Hunify Hderef Hrename.
  induction m as [|m IH]; intros j depth fuel s Hj Hfuel;
    (destruct fuel as [|fuel]; [lia|]);
    destruct (level_name_plain j) as [Hctl Hnames].
  - rewrite solve_single_clause with (body:="true"); try assumption.
    2:{ rewrite chain_program_lookup by lia. unfold chain_predicate.
        replace (Nat.ltb j k) with false
          by (symmetry; apply Nat.ltb_ge; lia).
        reflexivity. }
    destruct fuel as [|[|fuel]]; [lia|lia|].
    destruct (Nat.ltb_spec limit (S depth)) as [H|H].
    + replace (Nat.leb (depth + 0 + 1) limit) with false
        by (symmetry; apply Nat.leb_gt; lia).
      reflexivity.
    + replace (Nat.leb (depth + 0 + 1) limit) with true
        by (symmetry; apply Nat.leb_le; lia).
      simpl. rewrite Hderef by discriminate. reflexivity.
  - rewrite solve_single_clause with (body:=level_name (S j));
      try assumption.
    2:{ rewrite chain_program_lookup by lia. unfold chain_predicate.
        replace (Nat.ltb j k) with true
          by (symmetry; apply Nat.ltb_lt; lia).
        reflexivity. }
    rewrite IH by lia.
    destruct (Nat.ltb_spec limit (S depth)) as [H|H].
    + replace (Nat.leb (depth + S m + 1) limit) with false
        by (symmetry; apply Nat.leb_gt; lia).
      reflexivity.
    + destruct (Nat.leb_spec (S depth + m + 1) limit) as [H'|H'].
      * replace (Nat.leb (depth + S m + 1) limit) with true
          by (symmetry; apply Nat.leb_le; lia).
        destruct fuel as [|fuel]; [lia|]. reflexivity.
      * replace (Nat.leb (depth + S m + 1) limit) with false
          by (symmetry; apply Nat.leb_gt; lia).
        reflexivity.
Qed.

(** C5: an interpreter configured with a recursion limit raises the
    Prolog-level error [resource_error(recursion_depth_exceeded)], not the
    host's RecursionError, when a query nests more predicate calls than
    the limit: [infinite :- infinite.] raises it under every limit as soon
    as the host allows one more nested call than the limit; the error is a
    thrown term that [catch/3] catches; and the limit belongs to the
    interpreter: a query that nests [k + 1] predicate calls succeeds under
    a limit of at least [k + 1] and raises under a smaller one, so two
    interpreters with limits [l1 < l2] disagree on the same program.  In
    general, in any interpreter, a call of a user predicate from a goal
    list that is nested in as many frames as the limit allows raises the
    error. *)
Theorem recursion_limit_spec :
  atoms_unify unify -> nonvar_deref deref -> atoms_rename rename_clause ->
  (forall limit fuel s,
      limit < fuel ->
      query unify deref rename_clause (interp infinite_program limit)
        fuel (Atom "infinite") s
      = Abort depth_exceeded)
  /\ (forall limit fuel s catcher handler s1,
      limit < fuel ->
      unify catcher depth_exceeded_ball s = Some s1 ->
      query unify deref rename_clause (interp infinite_program limit)
        (S fuel) (Compound "catch" [Atom "infinite"; catcher; handler]) s
      = barrier (run infinite_program limit fuel 0 [handler] s1))
  /\ (forall k limit fuel s,
      k + 3 <= fuel ->
      query unify deref rename_clause (interp (chain_program k) limit)
        fuel (Atom "z") s
      = if Nat.leb (k + 1) limit then More s (Done false)
        else Abort depth_exceeded)
  /\ (forall l1 l2 fuel s,
      l1 < l2 -> l1 + 3 <= fuel ->
      query unify deref rename_clause (interp (chain_program l1) l1)
        fuel (Atom "z") s
      = Abort depth_exceeded
      /\ query unify deref rename_clause (interp (chain_program l1) l2)
        fuel (Atom "z") s
      = More s (Done false))
  /\ (forall (interpreter : Interpreter Subst) fuel depth g rest s
        name arity predicate,
      goal_indicator (deref g s) = Some (name, arity) ->
      control_construct name arity = false ->
      registry interpreter !! (name, arity) = None ->
      database interpreter !! (name, arity) = Some predicate ->
      clauses predicate <> [] ->
      max_recursion_depth interpreter <= depth ->
      solve unify deref rename_clause interpreter (S fuel) depth
        (g :: rest) s
      = Abort depth_exceeded).
Proof.
  intros Hunify Hderef Hrename.
  assert (Hchain : forall k limit fuel s,
      k + 3 <= fuel ->
      query unify deref rename_clause (interp (chain_program k) limit)
        fuel (Atom "z") s
      = if Nat.leb (k + 1) limit then More s (Done false)
        else Abort depth_exceeded).
  { intros k limit fuel s Hfuel. unfold query.
    change "z" with (level_name 0).
    rewrite chain_descends with (m:=k) by (assumption || lia).
    simpl. destruct (Nat.leb (k + 1) limit); reflexivity. }
  split; [|split; [|split; [|split]]].
  - intros limit fuel s Hfuel. unfold query.
    rewrite infinite_exceeds with (n:=limit) by (assumption || lia).
    reflexivity.
  - intros limit fuel s catcher handler s1 Hfuel Hcatch. unfold query.
    rewrite solve_catch_goal by exact Hderef. unfold solve_catch.
    rewrite infinite_exceeds with (n:=limit) by (assumption || lia).
    simpl barrier at 2. unfold depth_exceeded. simpl catching.
    rewrite Hcatch. destruct fuel as [|fuel']; [lia|].
    change (run infinite_program limit (S fuel') 0 [])
      with (fun s' : Subst => More s' (Done (Subst:=Subst) false)).
    rewrite and_then_return. apply barrier_idemp.
  - exact Hchain.
  - intros l1 l2 fuel s Hlt Hfuel. rewrite !Hchain by exact Hfuel.
    replace (Nat.leb (l1 + 1) l1) with false
      by (symmetry; apply Nat.leb_gt; lia).
    replace (Nat.leb (l1 + 1) l2) with true
      by (symmetry; apply Nat.leb_le; lia).
    split; reflexivity.
  - intros interpreter fuel depth g rest s name arity predicate
      Hind Hctl Hreg Hdb Hcls Hdepth.
    rewrite solve_cons.
    rewrite solve_goal_predicate with (name:=name) (arity:=arity)
      by assumption.
    unfold solve_predicate. rewrite Hdb.
    destruct (clauses predicate) as [|c cs]; [congruence|].
    replace (Nat.ltb (max_recursion_depth interpreter) (S depth)) with true
      by (symmetry; apply Nat.ltb_lt; lia).
    reflexivity.
Qed.

End DepthLimitFacts.

Lemma recursion_limit_spec_witness :
  query toy_unify toy_walk toy_rename
    (interpreter_of toy_unify toy_walk infinite_program 100)
    101 (Atom "infinite") 7
  = Abort depth_exceeded
  /\ query toy_unify toy_walk toy_rename
    (interpreter_of toy_unify toy_walk infinite_program 100)
    102 (Compound "catch" [Atom "infinite"; Var "E" 0; Atom "true"]) 7
  = More 7 (Done false)
  /\ query toy_unify toy_walk toy_rename
    (interpreter_of toy_unify toy_walk (chain_program 99) 50)
    102 (Atom "z") 7
  = Abort depth_exceeded
  /\ query toy_unify toy_walk toy_rename
    (interpreter_of toy_unify toy_walk (chain_program 99) 250)
    102 (Atom "z") 7
  = More 7 (Done false)
  /\ (query toy_unify toy_walk toy_rename
       (interpreter_of toy_unify toy_walk (chain_program 50) 50)
       60 (Atom "z") 7
     = Abort depth_exceeded
     /\ query toy_unify toy_walk toy_rename
       (interpreter_of toy_unify toy_walk (chain_program 50) 250)
       60 (Atom "z") 7
     = More 7 (Done false))
  /\ solve toy_unify toy_walk toy_rename toy_interpreter 1 10
       [Atom "p"; Atom "true"] 7
     = Abort depth_exceeded.
Proof.
  assert (Hunify : atoms_unify toy_unify) by (intros a b s; reflexivity).
  assert (Hderef : nonvar_deref toy_walk) by (intros t s _; reflexivity).
  assert (Hrename : atoms_rename toy_rename) by (intros a b s; reflexivity).
  destruct (recursion_limit_spec (rename_clause:=toy_rename)
              Hunify Hderef Hrename) as (H1 & H2 & H3 & H4 & H5).
  split; [|split; [|split; [|split; [|split]]]].
  - apply H1. lia.
  - rewrite (H2 100 101 7 (Var "E" 0) (Atom "true") 7) by (lia || reflexivity).
    reflexivity.
  - rewrite H3 by lia. reflexivity.
  - rewrite H3 by lia. reflexivity.
  - apply H4; lia.
  - apply (H5 toy_interpreter 0 10 (Atom "p") [Atom "true"] 7 "p" 0
             (MkPredicate
                [(Atom "p", Compound "call" [Atom "!"]);
                 (Atom "p", Atom "true")] false false false)).
    + reflexivity.
    + reflexivity.
    + reflexivity.
    + reflexivity.
    + discriminate.
    + simpl. lia.
Defined.

(* ================================================================== *)
(** ** call/1 and the cut *)
(* ================================================================== *)

Section CallFacts.
Context {Subst : Type}.
Variable unify : Term -> Term -> Subst -> option Subst.
Variable deref : Term -> Subst -> Term.
Variable rename_clause : Term * Term -> Subst -> (Term * Term) * Subst.
Variable interpreter : Interpreter Subst.

Local Abbreviation resolve :=
  (solve unify deref rename_clause interpreter).
Local Abbreviation registered := (call_registered deref interpreter).

Lemma iterate_answers_iterator (a : Answers Subst) :
  iterate (answers_iterator a tt) = barrier a.
Proof.
  induction a as [c|e|s a IH]; simpl; try reflexivity.
  rewrite IH. reflexivity.
Qed.

Lemma iterate_yield_from_tail (st : Step unit Subst) :
  iterate (yield_from st (fun w => Stopped w) propagate) = iterate st.
Proof.
  induction st as [w|e w|s resume IH close w]; simpl; try reflexivity.
  rewrite IH. reflexivity.
Qed.

Lemma cut_signal_or_else (a b : Answers Subst) :
  cut_signal a = false -> cut_signal (or_else a b) = cut_signal b
                          \/ cut_signal (or_else a b) = false.
Proof.
  induction a as [c|e|s a IH]; simpl; intros H.
  - subst c. left. reflexivity.
  - right. reflexivity.
  - apply IH. exact H.
Qed.

Lemma cut_signal_and_then (a : Answers Subst) (k : Subst -> Answers Subst) :
  cut_signal a = false -> (forall s, cut_signal (k s) = false) ->
  cut_signal (and_then a k) = false.
Proof.
  intros Ha Hk. induction a as [c|e|s a IH]; simpl in *.
  - exact Ha.
  - reflexivity.
  - destruct (@cut_signal_or_else (k s) (and_then a k) (Hk s)) as [H|H];
      rewrite H; auto.
Qed.

Lemma solve_nil_no_cut fuel depth s :
  cut_signal (resolve fuel depth [] s) = false.
Proof. destruct fuel; reflexivity. Qed.

Lemma or_else_clause_solutions (a b : Answers Subst) :
  cut_signal a = false -> aborted a = None ->
  solutions (or_else_clause a b) = solutions a ++ solutions b
  /\ aborted (or_else_clause a b) = aborted b.
Proof.
  induction a as [c|e|s a IH]; simpl; intros Hcut Hab.
  - subst c. split; reflexivity.
  - discriminate.
  - destruct (IH Hcut Hab) as [-> ->]. split; reflexivity.
Qed.

(** [call(G)] solves G as a goal list of its own, behind a barrier. *)
Lemma solve_call fuel depth G rest s :
  nonvar_deref deref -> registered ->
  resolve (S fuel) depth (Compound "call" [G] :: rest) s =
  and_then (barrier (resolve fuel depth [deref G s] s))
    (resolve fuel depth rest).
Proof.
  intros Hderef Hcall. rewrite solve_cons, Hderef by discriminate.
  rewrite solve_goal_builtin with (name:="call") (arity:=1)
    (builtin:=fun solve => _builtin_call deref solve)
    by (reflexivity || exact Hcall).
  unfold solve_builtin, _builtin_call, goal_args.
  rewrite iterate_yield_from_tail, iterate_answers_iterator. reflexivity.
Qed.

Lemma solve_call_no_cut fuel depth G s :
  nonvar_deref deref -> registered ->
  cut_signal (resolve fuel depth [Compound "call" [G]] s) = false.
Proof.
  intros Hderef Hcall. destruct fuel as [|fuel]; [reflexivity|].
  rewrite solve_call by assumption.
  apply cut_signal_and_then.
  - apply cut_signal_barrier.
  - intros s'. apply solve_nil_no_cut.
Qed.

(** C4: [call(G)] is a cut barrier.  G is solved as a goal list of its
    own and what comes back is the barrier of its answers, so a cut in G
    prunes within G only; the answers of [call(G)] never carry a cut
    signal; hence, in a predicate call whose clause body is [call(G)],
    the remaining clauses are still tried -- the solutions of the call
    are those of the body followed by those of the remaining clauses --
    whatever G is. *)
Theorem call_is_cut_barrier :
  nonvar_deref deref -> registered ->
  (forall fuel depth G rest s,
      resolve (S fuel) depth (Compound "call" [G] :: rest) s =
      and_then (barrier (resolve fuel depth [deref G s] s))
        (resolve fuel depth rest))
  /\ (forall fuel depth G s,
      cut_signal (resolve fuel depth [Compound "call" [G]] s) = false)
  /\ (forall fuel depth goal s clause remaining head G s0 s1,
      rename_clause clause s = ((head, Compound "call" [G]), s0) ->
      unify goal head s0 = Some s1 ->
      let body := resolve fuel depth [Compound "call" [G]] s1 in
      let alternatives :=
        try_clauses unify rename_clause (resolve fuel depth) goal s
          remaining in
      aborted body = None ->
      solutions
        (try_clauses unify rename_clause (resolve fuel depth) goal s
           (clause :: remaining))
      = solutions body ++ solutions alternatives
      /\ aborted
        (try_clauses unify rename_clause (resolve fuel depth) goal s
           (clause :: remaining))
      = aborted alternatives).
Proof.
  intros Hderef Hcall. split; [|split].
  - intros. apply solve_call; assumption.
  - intros. apply solve_call_no_cut; assumption.
  - intros fuel depth goal s clause remaining head G s0 s1 Hren Huni
      body alternatives Hbody.
    simpl. rewrite Hren, Huni.
    apply or_else_clause_solutions; [|exact Hbody].
    apply solve_call_no_cut; assumption.
Qed.

(** By contrast, a cut that stands in the clause body itself discards
    the remaining clauses. *)
Lemma cut_in_body_discards_clauses fuel depth goal s clause remaining
  head s0 s1 :
  nonvar_deref deref ->
  rename_clause clause s = ((head, Atom "!"), s0) ->
  unify goal head s0 = Some s1 ->
  try_clauses unify rename_clause (resolve (S (S fuel)) depth) goal s
    (clause :: remaining)
  = More s1 (Done false).
Proof.
  intros Hderef Hren Huni. simpl try_clauses. rewrite Hren, Huni.
  simpl. rewrite Hderef by discriminate. reflexivity.
Qed.

End CallFacts.

Lemma register_call {W Subst : Type}
  (unify : Term -> Term -> Subst -> option Subst)
  (deref : Term -> Subst -> Term)
  (base : gmap (string * nat) (Builtin W Subst)) :
  ControlBuiltins.register unify deref base !! ("call", 1) =
  Some (fun solve => _builtin_call deref solve).
Proof.
  unfold ControlBuiltins.register, register_builtin.
  repeat (rewrite lookup_insert_ne by discriminate).
  apply lookup_insert_eq.
Qed.

Lemma call_is_cut_barrier_witness :
  solve toy_unify toy_walk toy_rename toy_interpreter 5 0
    [Compound "call" [Compound ";" [Atom "!"; Atom "true"]]; Atom "true"] 7
  = More 7 (Done false)
  /\ cut_signal
       (solve toy_unify toy_walk toy_rename toy_interpreter 5 0
          [Compound "call" [Atom "!"]] 7)
     = false
  /\ solutions
       (try_clauses toy_unify toy_rename
          (solve toy_unify toy_walk toy_rename toy_interpreter 5 1)
          (Atom "p") 7
          [(Atom "p", Compound "call" [Atom "!"]); (Atom "p", Atom "true")])
     = [7; 7].
Proof.
  assert (Hderef : nonvar_deref toy_walk) by (intros t s _; reflexivity).
  assert (Hcall : call_registered toy_walk toy_interpreter)
    by (apply register_call).
  destruct (call_is_cut_barrier toy_unify toy_rename Hderef Hcall)
    as (H1 & H2 & H3).
  split; [|split].
  - rewrite H1. reflexivity.
  - apply H2.
  - refine (eq_trans
              (proj1 (H3 5 1 (Atom "p") 7 _ _ (Atom "p") (Atom "!") 7 7
                        eq_refl eq_refl eq_refl))
              eq_refl).
Defined.

(** The same clauses with the cut in the body itself: one solution. *)
Example cut_in_body_example :
  solutions
    (try_clauses toy_unify toy_rename
       (solve toy_unify toy_walk toy_rename toy_interpreter 5 1)
       (Atom "p") 7
       [(Atom "p", Atom "!"); (Atom "p", Atom "true")])
  = [7].
Proof. reflexivity. Qed.

(* ================================================================== *)
(** ** predicate_property/2 *)
(* ================================================================== *)

Section PredicatePropertyFacts.
Context {W Subst : Type}.
Variable unify : Term -> Term -> Subst -> option Subst.
Variable deref : Term -> Subst -> Term.
Variable interpreter : Interpreter Subst.


End PredicatePropertyFacts.

(* ================================================================== *)
(** ** if/else/endif *)
(* ================================================================== *)

Section ReaderFacts.
Variable has_solution : Term -> gmap (string * nat) Predicate -> bool.
Variable run_directive :
  Term -> gmap (string * nat) Predicate ->
  Exn + gmap (string * nat) Predicate.

Local Abbreviation read := (read_items has_solution run_directive).
Local Abbreviation load := (consult has_solution run_directive).

Lemma read_items_app (xs ys : list Item) (state : ReaderState) :
  read (xs ++ ys) state =
  match read xs state with
  | inl e => inl e
  | inr state' => read ys state'
  end.
Proof.
  revert state. induction xs as [|x xs IH]; intros state; simpl.
  - reflexivity.
  - destruct (read_item has_solution run_directive x state); [reflexivity|].
    apply IH.
Qed.

(** Clauses leave the block stack as it is. *)
Lemma read_clauses (cs : list Item) :
  Forall is_clause cs ->
  forall stack db, exists db', read cs (stack, db) = inr (stack, db').
Proof.
  induction 1 as [|c cs Hc _ IH]; intros stack db; simpl.
  - eauto.
  - destruct c as [goal|head body]; [destruct Hc|]. simpl.
    destruct (inclusion stack); apply IH.
Qed.

Lemma consult_raises (items : list Item) db e :
  read items ([], db) = inl e -> load items db = inl e.
Proof. unfold consult. intros ->. reflexivity. Qed.

Lemma read_else_unopened (suffix : list Item) db :
  read (else_ :: suffix) ([], db) =
  inl (syntax_error "else_without_if" "consult/1").
Proof. reflexivity. Qed.

Lemma read_endif_unopened (suffix : list Item) db :
  read (endif_ :: suffix) ([], db) =
  inl (syntax_error "endif_without_if" "consult/1").
Proof. reflexivity. Qed.

Lemma read_else_again (suffix : list Item) block stack db :
  seen_else block = true ->
  read (else_ :: suffix) (block :: stack, db) =
  inl (syntax_error "multiple_else" "consult/1").
Proof. intros H. simpl. rewrite H. reflexivity. Qed.

(** C7: during consult these faults raise a syntax error term instead of
    being accepted: an [:- else.] or an [:- endif.] read while no
    [:- if(...)] block is open; an [:- else.] read in a block whose
    [:- else.] has been read already -- in particular
    [:- if(G). clauses :- else. clauses :- else.] anywhere in a unit; and
    the end of a unit reached with a block still open. *)
Theorem conditional_compilation_faults :
  (forall prefix suffix db db',
      read prefix ([], db) = inr ([], db') ->
      (exists e, load (prefix ++ else_ :: suffix) db = inl e
                 /\ is_syntax_error e)
      /\ (exists e, load (prefix ++ endif_ :: suffix) db = inl e
                    /\ is_syntax_error e))
  /\ (forall prefix suffix db block stack db',
      read prefix ([], db) = inr (block :: stack, db') ->
      seen_else block = true ->
      exists e, load (prefix ++ else_ :: suffix) db = inl e
                /\ is_syntax_error e)
  /\ (forall prefix condition first second suffix db stack db',
      read prefix ([], db) = inr (stack, db') ->
      Forall is_clause first -> Forall is_clause second ->
      exists e,
        load (prefix ++ if_ condition :: first ++ else_ :: second
                ++ else_ :: suffix) db = inl e
        /\ is_syntax_error e)
  /\ (forall items db block stack db',
      read items ([], db) = inr (block :: stack, db') ->
      exists e, load items db = inl e /\ is_syntax_error e).
Proof.
  split; [|split; [|split]].
  - intros prefix suffix db db' Hprefix. split; eexists; split.
    + apply consult_raises. rewrite read_items_app, Hprefix.
      apply read_else_unopened.
    + unfold is_syntax_error. eauto.
    + apply consult_raises. rewrite read_items_app, Hprefix.
      apply read_endif_unopened.
    + unfold is_syntax_error. eauto.
  - intros prefix suffix db block stack db' Hprefix Hseen.
    eexists; split.
    + apply consult_raises. rewrite read_items_app, Hprefix.
      apply read_else_again. exact Hseen.
    + unfold is_syntax_error. eauto.
  - intros prefix condition first second suffix db stack db' Hprefix
      Hfirst Hsecond.
    eexists; split.
    + apply consult_raises. rewrite read_items_app, Hprefix.
      change (read (if_ condition :: first ++ else_ :: second
                      ++ else_ :: suffix) (stack, db'))
        with (read (first ++ else_ :: second ++ else_ :: suffix)
                (MkBlock
                   (inclusion stack && has_solution condition db')
                   (inclusion stack)
                   (inclusion stack && has_solution condition db')
                   false :: stack, db')).
      rewrite read_items_app.
      destruct (read_clauses Hfirst
                  (MkBlock
                     (inclusion stack && has_solution condition db')
                     (inclusion stack)
                     (inclusion stack && has_solution condition db')
                     false :: stack) db') as [db1 ->].
      change (read (else_ :: second ++ else_ :: suffix) _)
        with (read (second ++ else_ :: suffix)
                (MkBlock
                   (inclusion stack
                    && negb (inclusion stack && has_solution condition db'))
                   (inclusion stack) true true :: stack, db1)).
      rewrite read_items_app.
      destruct (read_clauses Hsecond
                  (MkBlock
                     (inclusion stack
                      && negb (inclusion stack
                               && has_solution condition db'))
                     (inclusion stack) true true :: stack) db1)
        as [db2 ->].
      apply read_else_again. reflexivity.
    + unfold is_syntax_error. eauto.
  - intros items db block stack db' Hitems. eexists; split.
    + unfold consult. rewrite Hitems. reflexivity.
    + unfold is_syntax_error. eauto.
Qed.

End ReaderFacts.


Lemma conditional_compilation_faults_witness :
  (exists e,
      consult toy_has_solution toy_directive [else_] ∅ = inl e
      /\ is_syntax_error e)
  /\ (exists e,
      consult toy_has_solution toy_directive [endif_] ∅ = inl e
      /\ is_syntax_error e)
  /\ (exists e,
      consult toy_has_solution toy_directive
        [if_ (Atom "true"); else_; if_ (Atom "true"); endif_; else_; endif_]
        ∅ = inl e
      /\ is_syntax_error e)
  /\ (exists e,
      consult toy_has_solution toy_directive
        [if_ (Atom "true"); Clause (Atom "a") (Atom "true"); else_;
         Clause (Atom "b") (Atom "true"); else_;
         Clause (Atom "c") (Atom "true"); endif_] ∅ = inl e
      /\ is_syntax_error e)
  /\ (exists e,
      consult toy_has_solution toy_directive
        [if_ (Atom "true"); Clause (Atom "fact") (Atom "true")] ∅ = inl e
      /\ is_syntax_error e).
Proof.
  destruct (conditional_compilation_faults toy_has_solution toy_directive)
    as (H1 & H2 & H3 & H4).
  split; [|split; [|split; [|split]]].
  - exact (proj1 (H1 [] [] ∅ ∅ eq_refl)).
  - exact (proj2 (H1 [] [] ∅ ∅ eq_refl)).
  - exact (H2 [if_ (Atom "true"); else_; if_ (Atom "true"); endif_]
             [endif_] ∅ _ _ _ eq_refl eq_refl).
  - refine (H3 [] (Atom "true") [Clause (Atom "a") (Atom "true")]
              [Clause (Atom "b") (Atom "true")]
              [Clause (Atom "c") (Atom "true"); endif_] ∅ [] ∅ eq_refl _ _);
      repeat constructor.
  - exact (H4 [if_ (Atom "true"); Clause (Atom "fact") (Atom "true")] ∅
             _ _ _ eq_refl).
Defined.

(* ================================================================== *)
(** ** The models against the repository's tests *)
(* ================================================================== *)

(** tests/test_conditional_compilation.py, [test_if_else_false_branch_used]
    and [test_nested_conditionals_respect_parent_state]. *)
Example if_else_false_branch_used :
  (fun db => defining_clauses (MkInterpreter db ∅ 0 : Interpreter nat)
               ("branch", 1))
  <$> (match consult toy_has_solution toy_directive
               [if_ (Atom "fail");
                Clause (Compound "branch" [Atom "false"]) (Atom "true");
                else_;
                Clause (Compound "branch" [Atom "true"]) (Atom "true");
                endif_] ∅ with
       | inr db => Some db
       | inl _ => None
       end)
  = Some [(Compound "branch" [Atom "true"], Atom "true")].
Proof. vm_compute. reflexivity. Qed.

Example nested_conditionals_respect_parent_state :
  (fun db => dom db)
  <$> (match consult toy_has_solution toy_directive
               [if_ (Atom "fail");
                Clause (Atom "outer_inactive") (Atom "true");
                if_ (Atom "true");
                Clause (Atom "nested_active") (Atom "true");
                endif_;
                else_;
                Clause (Atom "outer_active") (Atom "true");
                endif_] ∅ with
       | inr db => Some db
       | inl _ => None
       end)
  = Some {[ ("outer_active", 0) ]}.
Proof. vm_compute. reflexivity. Qed.

(** tests/test_predicate_property.py, [test_enumerate_dynamic_properties],
    [test_enumerate_multiple_properties], [test_atom_predicate] and
    [test_cut_builtin]. *)
Example enumerate_dynamic_properties :
  predicate_properties
    (MkInterpreter
       {[ ("dyn_test", 1) :=
            MkPredicate [(Compound "dyn_test" [Atom "a"], Atom "true")]
              true false false ]}
       (ControlBuiltins.register toy_unify toy_walk ∅) 10)
    ("dyn_test", 1)
  = ["dynamic"].
Proof. vm_compute. reflexivity. Qed.

Example enumerate_multiple_properties :
  predicate_properties
    (MkInterpreter
       {[ ("multi", 1) :=
            MkPredicate [(Compound "multi" [Number (PInt 1)], Atom "true")]
              true true true ]}
       (ControlBuiltins.register toy_unify toy_walk ∅) 10)
    ("multi", 1)
  = ["dynamic"; "multifile"; "discontiguous"].
Proof. vm_compute. reflexivity. Qed.

Example builtin_properties :
  predicate_properties toy_interpreter ("true", 0) = ["built_in"; "static"]
  /\ predicate_properties toy_interpreter ("!", 0) = ["built_in"; "static"]
  /\ predicate_properties toy_interpreter ("call", 1)
     = ["built_in"; "static"].
Proof. vm_compute. repeat split. Qed.

(** Section 8, "Cut locality": [(a ; b), !, c] commits to the first
    solution of the disjunction; behind [call/1] the cut does not. *)
Example cut_commits_to_first_solution :
  solutions
    (query toy_unify toy_walk toy_rename toy_interpreter 10
       (Compound ","
          [Compound ";" [Atom "true"; Atom "true"];
           Compound "," [Atom "!"; Atom "true"]]) 7)
  = [7]
  /\ solutions
    (query toy_unify toy_walk toy_rename toy_interpreter 10
       (Compound ","
          [Compound ";" [Atom "true"; Atom "true"];
           Compound "," [Compound "call" [Atom "!"]; Atom "true"]]) 7)
  = [7; 7].
Proof. vm_compute. split; reflexivity. Qed.

(* ================================================================== *)
(** ** once/1, ->/2, call/1 and ,/2 *)
(* ================================================================== *)

Section CommitFacts.
Context {W Subst : Type}.
Variable deref : Term -> Subst -> Term.
Variable solve : list Term -> Subst -> Gen W Subst.

(** X1: [once(Goal)] yields the first solution of the dereferenced Goal
    and nothing else, whatever the consumer does: its solutions are the
    first one of Goal's, if any; the goal's generator is never resumed
    -- the state at the end is the one after Goal's first activation and
    the finalization of its generator; a failure or an exception of Goal
    is the failure or the exception of [once(Goal)].  Arguments after
    the first are ignored. *)
Theorem once_first_solution_only (Goal : Term) (rest : list Term)
  (S : Subst) (w : W) (n : nat) :
  let goal := solve [deref Goal S] S w in
  let run := consume n (_builtin_once deref solve (Goal :: rest) S w) in
  yields run = take 1 (yields (drain goal))
  /\ final run = after_first_solution goal
  /\ ending run =
     match goal, n with
     | Yielded _ _ _ _, O => Closed None
     | Yielded _ _ _ _, _ => Exhausted
     | Stopped _, _ => Exhausted
     | Raised e _, _ => Failed e
     end.
Proof.
  intros goal run. subst goal run. unfold _builtin_once.
  destruct (solve [deref Goal S] S w) as [w1|e w1|s resume close w1];
    destruct n; simpl; auto.
Qed.

(** X2: [(Cond -> Then)] without an else branch: when Cond has a
    solution, the built-in behaves for every consumer as Then under the
    first substitution of Cond, whose generator is finalized at the end;
    when Cond fails, it fails, in the state Cond left; an exception of
    Cond propagates.  And [(Cond -> Then ; Else)] given to [;/2] is
    [(Cond -> Then)] unless Cond fails, in which case it is Else. *)
Theorem if_then_spec (Cond Then Else : Term) (S : Subst) (w : W) (n : nat) :
  consume n (_builtin_if_then solve [Cond; Then] S w) =
  match solve [Cond] S w with
  | Yielded s1 _ close w1 =>
      with_final (finalize close) (consume n (solve [Then] s1 w1))
  | Stopped w1 => MkOutcome [] Exhausted w1
  | Raised e w1 => MkOutcome [] (Failed e) w1
  end
  /\ consume n
       (_builtin_disjunction solve [Compound "->" [Cond; Then]; Else] S w) =
     match solve [Cond] S w with
     | Stopped w1 => consume n (solve [Else] S w1)
     | _ => consume n (_builtin_if_then solve [Cond; Then] S w)
     end.
Proof.
  assert (Hthen : forall s1 close w1,
    consume n
      (yield_from (solve [Then] s1 w1) (leave (dropping close) None)
         (dropping close)) =
    with_final (finalize close) (consume n (solve [Then] s1 w1))).
  { intros s1 close w1.
    rewrite consume_yield_from_unwind. unfold unwound, with_final, dropping.
    destruct (consume n (solve [Then] s1 w1)) as [ys [|e|r] wf];
      reflexivity. }
  unfold _builtin_if_then. simpl.
  destruct (solve [Cond] S w) as [w1|e w1|s1 resume close w1]; split.
  - destruct n; reflexivity.
  - apply consume_yield_from_tail.
  - destruct n; reflexivity.
  - reflexivity.
  - apply Hthen.
  - reflexivity.
Qed.

End CommitFacts.

Section DelegationFacts.
Context {W Subst : Type}.
Variable deref : Term -> Subst -> Term.
Variable solve : list Term -> Subst -> Gen W Subst.
Variable flatten : Term -> list Term.

(** X3: [call(Goal)] is transparent: for every consumer it yields the
    solutions, ends as and leaves the state of the dereferenced Goal
    solved under the same substitution, and it makes exactly one engine
    call, on that goal.  Arguments after the first are ignored. *)
Theorem call_is_transparent (Goal : Term) (rest : list Term) (S : Subst)
  (w : W) (n : nat) :
  consume n (_builtin_call deref solve (Goal :: rest) S w) =
  consume n (solve [deref Goal S] S w)
  /\ snd (final (consume n
            (_builtin_call deref (traced solve) (Goal :: rest) S (w, []))))
     = [Started [deref Goal S] S].
Proof.
  unfold _builtin_call. rewrite !consume_yield_from_tail.
  split; [reflexivity|].
  rewrite traced_start, consume_lift_step. reflexivity.
Qed.

(** X4: [','(Left, Right)] is solved as one goal list: the built-in
    makes a single engine call, on the list the engine's
    [_flatten_conjunction] makes of the conjunction term, and behaves for
    every consumer as that call; it does not solve Left and Right in two
    calls of its own. *)
Theorem conjunction_single_goal_list (Left Right : Term) (S : Subst)
  (w : W) (n : nat) :
  consume n (_builtin_conjunction solve flatten [Left; Right] S w) =
  consume n (solve (flatten (Compound "," [Left; Right])) S w)
  /\ snd (final (consume n
            (_builtin_conjunction (traced solve) flatten [Left; Right] S
               (w, []))))
     = [Started (flatten (Compound "," [Left; Right])) S].
Proof.
  unfold _builtin_conjunction. rewrite !consume_yield_from_tail.
  split; [reflexivity|].
  rewrite traced_start, consume_lift_step. reflexivity.
Qed.

(** X5: [\+ Goal] runs Goal when the built-in is called, once and as
    given (it is not dereferenced), up to its first solution at most:
    whatever the consumer of the result does, the engine state at the end
    is the one after Goal's first activation, with Goal's generator
    finalized, and the only engine call is that of Goal.  Arguments after
    the first are ignored. *)
Theorem negation_as_failure_single_activation (Goal : Term)
  (rest : list Term) (S : Subst) (w : W) (n : nat) :
  final (consume n
           (of_call (_negation_as_failure (traced solve) (Goal :: rest) S)
              (w, [])))
  = (after_first_solution (solve [Goal] S w), [Started [Goal] S]).
Proof.
  unfold of_call, _negation_as_failure. rewrite traced_start.
  destruct (solve [Goal] S w) as [w1|e w1|s resume close w1]; simpl.
  - destruct n; reflexivity.
  - destruct n; reflexivity.
  - unfold finalize. simpl. destruct (close w1). destruct n; reflexivity.
Qed.

(** X6: an if-then-else given to [;/2] runs one branch only: the engine
    calls are Cond and Then (under Cond's first substitution) when Cond
    has a solution, Cond and Else when it fails, and Cond alone when it
    raises -- for every consumer. *)
Theorem if_then_else_runs_one_branch (Cond Then Else : Term) (S : Subst)
  (w : W) (n : nat) :
  snd (final (consume n
         (_builtin_disjunction (traced solve)
            [Compound "->" [Cond; Then]; Else] S (w, []))))
  = match solve [Cond] S w with
    | Yielded s1 _ _ _ => [Started [Cond] S; Started [Then] s1]
    | Stopped _ => [Started [Cond] S; Started [Else] S]
    | Raised _ _ => [Started [Cond] S]
    end.
Proof.
  simpl. rewrite traced_start.
  destruct (solve [Cond] S w) as [w1|e w1|s1 resume close w1]; simpl.
  - rewrite consume_yield_from_tail, traced_start, consume_lift_step.
    reflexivity.
  - destruct n; reflexivity.
  - rewrite consume_yield_from_unwind, traced_start, consume_lift_step.
    unfold unwound, dropping, finalize. simpl.
    destruct (ending (consume n (solve [Then] s1 w1))); simpl;
      destruct (close _); reflexivity.
Qed.

(** X7: a plain disjunction is lazy in its right disjunct: Right is
    started only when the consumer has iterated Left to exhaustion; if
    the consumer closes the generator before, or Left raises, Left is the
    only engine call. *)
Theorem disjunction_right_started_lazily (Left Right : Term) (S : Subst)
  (w : W) (n : nat) :
  ~ if_then_shape Left ->
  snd (final (consume n
         (_builtin_disjunction (traced solve) [Left; Right] S (w, []))))
  = match ending (consume n (solve [Left] S w)) with
    | Exhausted => [Started [Left] S; Started [Right] S]
    | _ => [Started [Left] S]
    end.
Proof.
  intros Hshape. rewrite disjunction_plain by exact Hshape.
  rewrite consume_yield_from_seq, traced_start, consume_lift_step.
  unfold followed_by. simpl.
  destruct (ending (consume n (solve [Left] S w))); try reflexivity.
  unfold prepend. simpl.
  rewrite consume_yield_from_tail, traced_start, consume_lift_step.
  reflexivity.
Qed.

End DelegationFacts.

Lemma disjunction_right_started_lazily_witness :
  snd (final (consume 0
         (_builtin_disjunction (traced toy_solve)
            [Atom "twice"; Atom "true"] 0 (0, []))))
  = [Started [Atom "twice"] 0]
  /\ snd (final (consume 2
         (_builtin_disjunction (traced toy_solve)
            [Atom "twice"; Atom "true"] 0 (0, []))))
  = [Started [Atom "twice"] 0; Started [Atom "true"] 0].
Proof.
  split.
  - refine (@disjunction_right_started_lazily _ _ toy_solve
              (Atom "twice") (Atom "true") 0 0 0 _).
    intros (c & t & H). discriminate H.
  - refine (@disjunction_right_started_lazily _ _ toy_solve
              (Atom "twice") (Atom "true") 0 0 2 _).
    intros (c & t & H). discriminate H.
Defined.

(* ================================================================== *)
(** ** =/2 against \=/2, and the argument tuples *)
(* ================================================================== *)

Section UnifyFacts.
Context {Subst : Type}.
Variable unify : Term -> Term -> Subst -> option Subst.

(** X8: [=/2] hands back exactly what [unify] gives for its first two
    arguments, and [=/2] and [\=/2] are complementary: on the same
    arguments and substitution exactly one of them succeeds, and when it
    is [\=/2], with the substitution unchanged. *)
Theorem unify_not_unifiable_complementary (A B : Term) (rest : list Term)
  (S : Subst) :
  _builtin_unify unify (A :: B :: rest) S = inr (unify A B S)
  /\ match _builtin_unify unify (A :: B :: rest) S,
           _builtin_not_unifiable unify (A :: B :: rest) S with
     | inr (Some _), inr None => True
     | inr None, inr (Some s) => s = S
     | _, _ => False
     end.
Proof.
  unfold _builtin_unify, _builtin_not_unifiable.
  destruct (unify A B S); split; reflexivity.
Qed.

End UnifyFacts.

Section ArityFacts.
Context {W Subst : Type}.
Variable unify : Term -> Term -> Subst -> option Subst.
Variable deref : Term -> Subst -> Term.
Variable predicate_defined : string -> nat -> W -> bool.
Variable solve : list Term -> Subst -> Gen W Subst.
Variable flatten : Term -> list Term.

(** X9: called with an argument tuple of the wrong length, the
    built-ins that unpack the tuple ([;/2], [->/2], [,/2],
    [call_cleanup/2], [phrase/2]; [setup_call_cleanup/3], [phrase/3])
    raise ValueError in their first activation, with the engine state
    unchanged; those that index it ([call/1],
    [once/1], [\+/1]; [=/2], [\=/2]) raise IndexError when an argument
    they read is missing. *)
Theorem argument_count_errors (args : list Term) (S : Subst) (w : W) :
  (length args <> 2 ->
     _builtin_disjunction solve args S w = Raised (HostError "ValueError") w
     /\ _builtin_if_then solve args S w = Raised (HostError "ValueError") w
     /\ _builtin_conjunction solve flatten args S w =
        Raised (HostError "ValueError") w
     /\ _builtin_call_cleanup deref solve args S w =
        Raised (HostError "ValueError") w
     /\ _builtin_phrase_2 deref predicate_defined solve args S w =
        Raised (HostError "ValueError") w)
  /\ (length args <> 3 ->
     _builtin_setup_call_cleanup deref solve args S w =
       Raised (HostError "ValueError") w
     /\ _builtin_phrase_3 deref predicate_defined solve args S w =
        Raised (HostError "ValueError") w)
  /\ (length args < 1 ->
     _builtin_call deref solve args S w = Raised (HostError "IndexError") w
     /\ _builtin_once deref solve args S w =
        Raised (HostError "IndexError") w
     /\ _negation_as_failure solve args S w =
        Raise (HostError "IndexError") w)
  /\ (length args < 2 ->
     _builtin_unify unify args S = inl (HostError "IndexError")
     /\ _builtin_not_unifiable unify args S = inl (HostError "IndexError")).
Proof.
  split; [|split; [|split]]; intros H.
  - destruct args as [|a0 [|a1 [|a2 more]]]; simpl in H; try lia;
      repeat split; reflexivity.
  - destruct args as [|a0 [|a1 [|a2 [|a3 more]]]]; simpl in H; try lia;
      repeat split; reflexivity.
  - destruct args as [|a0 more]; simpl in H; try lia.
    repeat split; reflexivity.
  - destruct args as [|a0 [|a1 more]]; simpl in H; try lia;
      split; reflexivity.
Qed.

End ArityFacts.

Lemma argument_count_errors_witness :
  _builtin_disjunction toy_solve [Atom "true"] 0 0 =
    Raised (HostError "ValueError") 0
  /\ _builtin_setup_call_cleanup toy_walk toy_solve
       [Atom "true"; Atom "true"] 0 0 = Raised (HostError "ValueError") 0
  /\ _builtin_once toy_walk toy_solve [] 0 0 =
       Raised (HostError "IndexError") 0
  /\ _builtin_unify toy_unify [Atom "a"] 0 = inl (HostError "IndexError").
Proof.
  split; [|split; [|split]].
  - refine (proj1 (proj1 (argument_count_errors toy_unify toy_walk
                            toy_defined toy_solve _flatten_conjunction
                            [Atom "true"] 0 0) _)).
    simpl. lia.
  - refine (proj1 (proj1 (proj2 (argument_count_errors toy_unify toy_walk
                            toy_defined toy_solve _flatten_conjunction
                            [Atom "true"; Atom "true"] 0 0)) _)).
    simpl. lia.
  - refine (proj1 (proj2 (proj1 (proj2 (proj2 (argument_count_errors
                            toy_unify toy_walk toy_defined toy_solve
                            _flatten_conjunction [] 0 0))) _))).
    simpl. lia.
  - refine (proj1 (proj2 (proj2 (proj2 (argument_count_errors
                            toy_unify toy_walk toy_defined toy_solve
                            _flatten_conjunction [Atom "a"] 0 0))) _)).
    simpl. lia.
Defined.

(* ================================================================== *)
(** ** Exceptions in setup_call_cleanup/3 and call_cleanup/2 *)
(* ================================================================== *)

Section CleanupExceptions.
Context {W Subst : Type}.
Variable deref : Term -> Subst -> Term.
Variable solve : list Term -> Subst -> Gen W Subst.

Lemma call_cleanup_once_raises (cleanup : Term) (s : Subst) (w : W) e w' :
  solve [cleanup] s w = Raised e w' ->
  call_cleanup_once solve cleanup s w = (w', Some e).
Proof. unfold call_cleanup_once. intros ->. reflexivity. Qed.

(** X10: an exception raised by Cleanup is not swallowed.  In
    [call_cleanup/2] and in [setup_call_cleanup/3] (after Setup
    succeeded), when Cleanup raises [e] the run yields Goal's solutions
    and then ends with [e]: [e] replaces the exception Goal raised, if
    any, and when the consumer closes the generator, the close raises
    [e]; the generator of Setup is finalized all the same.  When Setup
    itself raises, the exception propagates and Setup is the only engine
    call: neither Goal nor Cleanup is run. *)
Theorem cleanup_exception_propagates (Setup Goal Cleanup : Term)
  (S : Subst) (w : W) (n : nat) :
  (forall e w',
      let o := consume n (solve [deref Goal S] S w) in
      solve [deref Cleanup S] S (final o) = Raised e w' ->
      consume n (_builtin_call_cleanup deref solve [Goal; Cleanup] S w) =
      MkOutcome (yields o)
        (match ending o with
         | Closed _ => Closed (Some e)
         | _ => Failed e
         end) w')
  /\ (forall s1 resume close w1 e w',
      solve [deref Setup S] S w = Yielded s1 resume close w1 ->
      let o := consume n (solve [deref Goal S] s1 w1) in
      solve [deref Cleanup S] s1 (final o) = Raised e w' ->
      consume n
        (_builtin_setup_call_cleanup deref solve [Setup; Goal; Cleanup] S w)
      = MkOutcome (yields o)
          (match ending o with
           | Closed _ => Closed (Some e)
           | _ => Failed e
           end) (finalize close w'))
  /\ (forall e w1,
      solve [deref Setup S] S w = Raised e w1 ->
      consume n
        (_builtin_setup_call_cleanup deref (traced solve)
           [Setup; Goal; Cleanup] S (w, []))
      = MkOutcome [] (Failed e) (w1, [Started [deref Setup S] S])).
Proof.
  split; [|split].
  - intros e w' o Hcleanup. subst o. unfold _builtin_call_cleanup.
    rewrite consume_yield_from_unwind. unfold unwound, finally_.
    destruct (consume n (solve [deref Goal S] S w)) as [ys [|e0|r] wf];
      simpl in *; rewrite (call_cleanup_once_raises Hcleanup);
      reflexivity.
  - intros s1 resume close w1 e w' Hsetup o Hcleanup. subst o.
    unfold _builtin_setup_call_cleanup. rewrite Hsetup.
    rewrite consume_yield_from_unwind.
    unfold unwound, unwind_then, finally_, dropping.
    destruct (consume n (solve [deref Goal S] s1 w1)) as [ys [|e0|r] wf];
      simpl in *; rewrite (call_cleanup_once_raises Hcleanup);
      reflexivity.
  - intros e w1 Hsetup. unfold _builtin_setup_call_cleanup.
    rewrite traced_start, Hsetup. destruct n; reflexivity.
Qed.

(** X11: [setup_call_cleanup(Setup, Goal, Cleanup)] is
    [call_cleanup(Goal, Cleanup)] run under the first solution of Setup:
    when Setup yields [s1] and the dereferenced Goal and Cleanup are
    their own dereference under [s1], the two runs agree for every
    consumer, but for the finalization of Setup's generator at the
    end. *)
Theorem setup_call_cleanup_as_call_cleanup (Setup Goal Cleanup : Term)
  (S : Subst) (w : W) (n : nat) s1 resume close w1 :
  solve [deref Setup S] S w = Yielded s1 resume close w1 ->
  deref (deref Goal S) s1 = deref Goal S ->
  deref (deref Cleanup S) s1 = deref Cleanup S ->
  consume n
    (_builtin_setup_call_cleanup deref solve [Setup; Goal; Cleanup] S w)
  = with_final (finalize close)
      (consume n
         (_builtin_call_cleanup deref solve
            [deref Goal S; deref Cleanup S] s1 w1)).
Proof.
  intros Hsetup Hgoal Hcleanup.
  unfold _builtin_setup_call_cleanup, _builtin_call_cleanup.
  rewrite Hsetup, Hgoal, Hcleanup. rewrite !consume_yield_from_unwind.
  unfold unwound, unwind_then, dropping, with_final.
  destruct (consume n (solve [deref Goal S] s1 w1)) as [ys [|e0|r] wf];
    simpl; destruct (finally_ _ _ _) as [w' p]; reflexivity.
Qed.

End CleanupExceptions.

Lemma cleanup_exception_propagates_witness :
  consume 5
    (_builtin_call_cleanup toy_walk toy_solve [Atom "twice"; Atom "boom"] 0 0)
  = MkOutcome [1; 2] (Failed (PrologThrow (Atom "boom"))) 2
  /\ consume 0
    (_builtin_call_cleanup toy_walk toy_solve [Atom "twice"; Atom "boom"] 0 0)
  = MkOutcome [1] (Closed (Some (PrologThrow (Atom "boom")))) 2
  /\ consume 5
    (_builtin_setup_call_cleanup toy_walk toy_solve
       [Atom "defer"; Atom "boom"; Atom "boom"] 0 0)
  = MkOutcome [] (Failed (PrologThrow (Atom "boom"))) 103
  /\ consume 5
    (_builtin_setup_call_cleanup toy_walk (traced toy_solve)
       [Atom "boom"; Atom "twice"; Atom "true"] 0 (0, []))
  = MkOutcome [] (Failed (PrologThrow (Atom "boom")))
      (1, [Started [Atom "boom"] 0]).
Proof.
  split; [|split; [|split]].
  - exact (proj1 (cleanup_exception_propagates toy_walk toy_solve
                    (Atom "true") (Atom "twice") (Atom "boom") 0 0 5)
             _ _ eq_refl).
  - exact (proj1 (cleanup_exception_propagates toy_walk toy_solve
                    (Atom "true") (Atom "twice") (Atom "boom") 0 0 0)
             _ _ eq_refl).
  - exact (proj1 (proj2 (cleanup_exception_propagates toy_walk toy_solve
                    (Atom "defer") (Atom "boom") (Atom "boom") 0 0 5))
             0 _ _ 1 _ _ eq_refl eq_refl).
  - exact (proj2 (proj2 (cleanup_exception_propagates toy_walk toy_solve
                    (Atom "boom") (Atom "twice") (Atom "true") 0 0 5))
             _ _ eq_refl).
Defined.

Lemma setup_call_cleanup_as_call_cleanup_witness :
  consume 5
    (_builtin_setup_call_cleanup toy_walk toy_solve
       [Atom "defer"; Atom "twice"; Atom "true"] 0 0)
  = MkOutcome [1; 2] Exhausted 103.
Proof.
  exact (eq_trans
           (setup_call_cleanup_as_call_cleanup toy_walk toy_solve
              (Atom "defer") (Atom "twice") (Atom "true") 0 0 5
              (s1:=0) (w1:=1) eq_refl eq_refl eq_refl)
           eq_refl).
Defined.

(* ================================================================== *)
(** ** phrase/2 against phrase/3 *)
(* ================================================================== *)

Section PhraseRelation.
Context {W Subst : Type}.
Variable deref : Term -> Subst -> Term.
Variable predicate_defined : string -> nat -> W -> bool.
Variable solve : list Term -> Subst -> Gen W Subst.

(** X12: [phrase(Body, List)] is [phrase(Body, List, [])]: when Body
    dereferences to an atom or a compound whose expansion with
    [(List, [])] names a defined predicate, the two built-ins run the
    same generator. *)
Theorem phrase_2_is_phrase_3_with_empty_rest (Body L : Term) (S : Subst)
  (w : W) goal name arity :
  append_args (deref Body S) [L; PList [] None] = Some goal ->
  goal_indicator goal = Some (name, arity) ->
  predicate_defined name arity w = true ->
  _builtin_phrase_2 deref predicate_defined solve [Body; L] S w =
  _builtin_phrase_3 deref predicate_defined solve
    [Body; L; PList [] None] S w.
Proof.
  rewrite phrase_2_behaviour, phrase_3_behaviour.
  unfold phrase_behaviour, append_args.
  destruct (deref Body S) as [a|v|x i|functor args|es tl]; try discriminate;
    intros [= <-]; simpl; intros [= <- <-] ->; reflexivity.
Qed.

End PhraseRelation.

Lemma phrase_2_is_phrase_3_with_empty_rest_witness :
  _builtin_phrase_2 toy_walk toy_defined toy_solve
    [Atom "twice"; Atom "input"] 0 0
  = _builtin_phrase_3 toy_walk toy_defined toy_solve
      [Atom "twice"; Atom "input"; PList [] None] 0 0.
Proof.
  exact (phrase_2_is_phrase_3_with_empty_rest toy_walk toy_defined toy_solve
           (Atom "twice") (Atom "input") 0 0 (name:="twice") (arity:=2)
           eq_refl eq_refl eq_refl).
Defined.

(* ================================================================== *)
(** ** The three register functions *)
(* ================================================================== *)

Section ControlRegistryFacts.
Context {W Subst : Type}.
Variable unify : Term -> Term -> Subst -> option Subst.
Variable deref : Term -> Subst -> Term.
Implicit Types (base : gmap (string * nat) (Builtin W Subst)).

Local Abbreviation control := (ControlBuiltins.register unify deref (W:=W)).

Lemma register_control_other base key :
  key ∉ control_indicators -> control base !! key = base !! key.
Proof.
  intros Hkey. unfold ControlBuiltins.register, register_builtin.
  unfold control_indicators in Hkey.
  repeat (apply not_elem_of_cons in Hkey as [? Hkey]).
  repeat (rewrite lookup_insert_ne by congruence). reflexivity.
Qed.

Lemma register_control_own base key :
  key ∈ control_indicators -> control base !! key = control ∅ !! key.
Proof.
  intros Hkey. unfold control_indicators in Hkey.
  unfold ControlBuiltins.register, register_builtin.
  repeat (apply elem_of_cons in Hkey as [->|Hkey];
          [repeat (rewrite lookup_insert_ne by discriminate);
           rewrite !lookup_insert_eq; reflexivity|]).
  apply elem_of_nil in Hkey. destruct Hkey.
Qed.

(** X13: [ControlBuiltins.register] adds the twelve control indicators
    to the registry and touches nothing else: the registry's indicators
    afterwards are the old ones and the twelve; an entry under any other
    indicator is as before; under each of the twelve there is an entry,
    which does not depend on what the registry held (an earlier entry is
    overridden); and registering twice is registering once. *)
Theorem register_control_builtins base :
  dom (control base) = dom base ∪ list_to_set control_indicators
  /\ (forall key, key ∉ control_indicators ->
        control base !! key = base !! key)
  /\ (forall key, key ∈ control_indicators ->
        is_Some (control base !! key)
        /\ control base !! key = control ∅ !! key)
  /\ control (control base) = control base.
Proof.
  split; [|split; [|split]].
  - unfold ControlBuiltins.register, register_builtin, control_indicators.
    rewrite !dom_insert_L. simpl.
    apply set_eq. intros key.
    rewrite !elem_of_union, !elem_of_singleton, elem_of_empty. tauto.
  - apply register_control_other.
  - intros key Hkey. split; [|apply register_control_own; exact Hkey].
    rewrite register_control_own by exact Hkey.
    unfold control_indicators in Hkey.
    repeat (apply elem_of_cons in Hkey as [->|Hkey]; [vm_compute; eauto|]).
    apply elem_of_nil in Hkey. destruct Hkey.
  - apply map_eq. intros key.
    destruct (decide (key ∈ control_indicators)) as [Hkey|Hkey].
    + rewrite register_control_own by exact Hkey. symmetry.
      apply register_control_own. exact Hkey.
    + apply register_control_other. exact Hkey.
Qed.

End ControlRegistryFacts.

Section RegistryFacts.
Context {W Subst : Type}.
Variable unify : Term -> Term -> Subst -> option Subst.
Variable deref : Term -> Subst -> Term.
Variable predicate_defined : string -> nat -> W -> bool.
Implicit Types (base : gmap (string * nat) (Builtin W Subst)).

Local Abbreviation control := (ControlBuiltins.register unify deref (W:=W)).
Local Abbreviation dcg :=
  (DCGBuiltins.register deref predicate_defined).
Local Abbreviation dummy := (DummyBuiltins.register (W:=W) (Subst:=Subst)).

Lemma register_dcg_other base key :
  key ∉ dcg_indicators -> dcg base !! key = base !! key.
Proof.
  intros Hkey. unfold DCGBuiltins.register, register_builtin.
  unfold dcg_indicators in Hkey.
  repeat (apply not_elem_of_cons in Hkey as [? Hkey]).
  repeat (rewrite lookup_insert_ne by congruence). reflexivity.
Qed.

Lemma register_dcg_own base key :
  key ∈ dcg_indicators -> dcg base !! key = dcg ∅ !! key.
Proof.
  intros Hkey. unfold dcg_indicators in Hkey.
  unfold DCGBuiltins.register, register_builtin.
  repeat (apply elem_of_cons in Hkey as [->|Hkey];
          [repeat (rewrite lookup_insert_ne by discriminate);
           rewrite !lookup_insert_eq; reflexivity|]).
  apply elem_of_nil in Hkey. destruct Hkey.
Qed.

Lemma indicators_disjoint key :
  key ∈ control_indicators ->
  (key ∉ dcg_indicators) /\ key <> ("dummy_test", 0).
Proof.
  unfold control_indicators, dcg_indicators. intros Hkey.
  repeat (apply elem_of_cons in Hkey as [->|Hkey];
          [split; [|discriminate];
           intros H; repeat (apply elem_of_cons in H as [H|H];
                             [discriminate H|]);
           apply elem_of_nil in H; exact H|]).
  apply elem_of_nil in Hkey. destruct Hkey.
Qed.

(** X14: the register functions of the control, DCG and dummy built-ins
    can be called in any order: they register under disjoint indicators,
    so each two of them commute on every registry, and after the three
    the registry's indicators are the old ones, the twelve control
    indicators, [phrase/2], [phrase/3] and [dummy_test/0]. *)
Theorem registers_commute base :
  dcg (control base) = control (dcg base)
  /\ dummy (control base) = control (dummy base)
  /\ dummy (dcg base) = dcg (dummy base)
  /\ dom (dummy (dcg (control base))) =
     dom base
     ∪ list_to_set
         (control_indicators ++ dcg_indicators ++ [("dummy_test", 0)]).
Proof.
  split; [|split; [|split]].
  - apply map_eq. intros key.
    destruct (decide (key ∈ control_indicators)) as [Hkey|Hkey].
    + rewrite register_dcg_other by (apply indicators_disjoint; exact Hkey).
      rewrite (register_control_own unify deref base Hkey). symmetry.
      apply register_control_own. exact Hkey.
    + rewrite register_control_other by exact Hkey.
      destruct (decide (key ∈ dcg_indicators)) as [Hdcg|Hdcg].
      * rewrite (register_dcg_own (control base) Hdcg). symmetry.
        apply register_dcg_own. exact Hdcg.
      * rewrite !register_dcg_other by exact Hdcg.
        apply register_control_other. exact Hkey.
  - apply map_eq. intros key. unfold DummyBuiltins.register, register_builtin.
    destruct (decide (key ∈ control_indicators)) as [Hkey|Hkey].
    + rewrite lookup_insert_ne
        by (intros <-; apply indicators_disjoint in Hkey; tauto).
      rewrite (register_control_own unify deref base Hkey). symmetry.
      apply register_control_own. exact Hkey.
    + rewrite register_control_other by exact Hkey.
      destruct (decide (("dummy_test", 0) = key)) as [<-|Hdummy].
      * rewrite !lookup_insert_eq. reflexivity.
      * rewrite !lookup_insert_ne by exact Hdummy.
        apply register_control_other. exact Hkey.
  - unfold DummyBuiltins.register, DCGBuiltins.register, register_builtin.
    rewrite (insert_insert_ne (<[_:=_]> base)) by discriminate.
    rewrite (insert_insert_ne base) by discriminate. reflexivity.
  - unfold DummyBuiltins.register, DCGBuiltins.register,
      ControlBuiltins.register, register_builtin, control_indicators,
      dcg_indicators.
    rewrite !dom_insert_L. simpl.
    apply set_eq. intros key.
    rewrite !elem_of_union, !elem_of_singleton, elem_of_empty. tauto.
Qed.

End RegistryFacts.

Lemma register_control_builtins_witness :
  ControlBuiltins.register toy_unify toy_walk (W:=nat)
    (DummyBuiltins.register ∅) !! ("dummy_test", 0)
  = DummyBuiltins.register ∅ !! ("dummy_test", 0)
  /\ is_Some
       (ControlBuiltins.register toy_unify toy_walk (W:=nat)
          (DummyBuiltins.register ∅) !! ("once", 1)).
Proof.
  destruct (register_control_builtins toy_unify toy_walk (W:=nat)
              (DummyBuiltins.register ∅)) as (_ & Hother & Hown & _).
  split.
  - apply Hother. unfold control_indicators. intros H.
    repeat (apply elem_of_cons in H as [H|H]; [discriminate H|]).
    apply elem_of_nil in H. exact H.
  - apply Hown. unfold control_indicators.
    do 7 apply list_elem_of_further. apply list_elem_of_here.
Defined.

(* ================================================================== *)
(** ** Strings *)
(* ================================================================== *)

Lemma append_cons (x : ascii) (a t : string) :
  String x a +:+ t = String x (a +:+ t).
Proof. reflexivity. Qed.

Lemma append_nil (t : string) : EmptyString +:+ t = t.
Proof. reflexivity. Qed.

Lemma append_length (a t : string) :
  String.length (a +:+ t) = String.length a + String.length t.
Proof.
  induction a as [|x a IH]; [reflexivity|].
  rewrite append_cons. simpl. rewrite IH. reflexivity.
Qed.

Lemma append_assoc (a b t : string) : a +:+ b +:+ t = (a +:+ b) +:+ t.
Proof.
  induction a as [|x a IH]; [reflexivity|].
  rewrite !append_cons, IH. reflexivity.
Qed.

Section StringFacts.
Variable c : ascii.

Lemma split_free (s : string) : free_of c s = true -> split c s = (s, []).
Proof.
  induction s as [|a s IH]; simpl; [reflexivity|].
  intros H. apply andb_prop in H as [Ha Hs]. rewrite IH by exact Hs.
  apply negb_true_iff in Ha. rewrite Ha. reflexivity.
Qed.

Lemma split_app (a b : string) :
  free_of c a = true ->
  split c (a +:+ String c b) = (a, fst (split c b) :: snd (split c b)).
Proof.
  induction a as [|x a IH]; simpl.
  - intros _. rewrite Ascii.eqb_refl. destruct (split c b); reflexivity.
  - intros H. apply andb_prop in H as [Hx Ha]. rewrite IH by exact Ha.
    apply negb_true_iff in Hx. rewrite Hx. reflexivity.
Qed.

Lemma split_join (s : string) :
  join c (fst (split c s) :: snd (split c s)) = s
  /\ Forall (fun part => free_of c part = true)
       (fst (split c s) :: snd (split c s)).
Proof.
  induction s as [|a s [IHjoin IHfree]]; simpl.
  - split; [reflexivity|]. repeat constructor.
  - destruct (split c s) as [head tail]. simpl in *.
    destruct (Ascii.eqb a c) eqn:E.
    + apply Ascii.eqb_eq in E. subst a. simpl. split.
      * rewrite IHjoin. reflexivity.
      * constructor; [reflexivity|exact IHfree].
    + simpl. inversion IHfree as [|? ? Hhead Htail]; subst. split.
      * destruct tail as [|t tail]; reflexivity.
      * constructor; [|exact Htail]. simpl. rewrite E, Hhead. reflexivity.
Qed.

Lemma rstrip_free (s : string) : free_of c s = true -> rstrip c s = s.
Proof.
  induction s as [|a s IH]; simpl; [reflexivity|].
  intros H. apply andb_prop in H as [Ha Hs]. rewrite IH by exact Hs.
  apply negb_true_iff in Ha. rewrite Ha. destruct s; reflexivity.
Qed.

Lemma rstrip_app (a b : string) :
  rstrip c b <> EmptyString -> rstrip c (a +:+ b) = a +:+ rstrip c b.
Proof.
  intros Hb. induction a as [|x a IH]; [reflexivity|].
  rewrite !append_cons. simpl. rewrite IH.
  assert (H : a +:+ rstrip c b <> EmptyString)
    by (destruct a; [exact Hb|discriminate]).
  destruct (a +:+ rstrip c b); [congruence|reflexivity].
Qed.

Lemma rstrip_sep (s : string) :
  rstrip c (s +:+ String c EmptyString) = rstrip c s.
Proof.
  induction s as [|a s IH]; simpl.
  - rewrite Ascii.eqb_refl. reflexivity.
  - rewrite IH. reflexivity.
Qed.

Lemma rstrip_length (s : string) :
  String.length (rstrip c s) <= String.length s.
Proof.
  induction s as [|a s IH]; simpl; [lia|].
  destruct (rstrip c s); simpl in *; [destruct (Ascii.eqb a c); simpl|]; lia.
Qed.

Lemma rstrip_idemp (s : string) : rstrip c (rstrip c s) = rstrip c s.
Proof.
  induction s as [|a s IH]; simpl; [reflexivity|].
  destruct (rstrip c s) as [|b kept] eqn:E.
  - destruct (Ascii.eqb a c) eqn:Ea; simpl; [reflexivity|].
    rewrite Ea. reflexivity.
  - simpl in *. rewrite IH. reflexivity.
Qed.

Lemma lstrip_idemp (s : string) : lstrip c (lstrip c s) = lstrip c s.
Proof.
  induction s as [|a s IH]; simpl; [reflexivity|].
  destruct (Ascii.eqb a c) eqn:E; [exact IH|]. simpl. rewrite E. reflexivity.
Qed.


(** The first character of what [strip] leaves is not the stripped one. *)
Lemma strip_head (s rest : string) : strip c s <> String c rest.
Proof.
  unfold strip. intros H.
  assert (Hl : lstrip c (lstrip c s) = lstrip c s) by apply lstrip_idemp.
  destruct (lstrip c s) as [|a kept] eqn:E; [discriminate H|].
  simpl in Hl. destruct (Ascii.eqb a c) eqn:Ea.
  - assert (String.length (lstrip c kept) <= String.length kept).
    { clear. induction kept as [|b k IH]; simpl; [lia|].
      destruct (Ascii.eqb b c); simpl; lia. }
    rewrite Hl in H0. simpl in H0. lia.
  - simpl in H. destruct (rstrip c kept); [rewrite Ea in H|];
      injection H as -> _; rewrite Ascii.eqb_refl in Ea; discriminate.
Qed.

(** Nor is the last one. *)
Lemma strip_last (s prefix : string) :
  strip c s <> prefix +:+ String c EmptyString.
Proof.
  unfold strip. intros H.
  pose proof (rstrip_idemp (lstrip c s)) as Hidem.
  rewrite H, rstrip_sep in Hidem.
  pose proof (rstrip_length prefix) as Hlen. rewrite Hidem in Hlen.
  rewrite append_length in Hlen. simpl in Hlen. lia.
Qed.

End StringFacts.

(* ================================================================== *)
(** ** gh_pr_helper.py: parse_pr_path *)
(* ================================================================== *)

Section PrPathFacts.
Import GhPrHelper.

Lemma split_pr_path (owner repo pr_number : string) :
  free_of "/" owner = true -> free_of "/" repo = true ->
  free_of "/" pr_number = true ->
  split "/" (pr_path_of owner repo pr_number) =
  (owner, [repo; "pull"; pr_number]).
Proof.
  intros Howner Hrepo Hnumber.
  change (pr_path_of owner repo pr_number)
    with (owner +:+ String "/" (repo +:+ String "/"
            ("pull" +:+ String "/" pr_number))).
  rewrite !split_app by (assumption || reflexivity).
  rewrite split_free by exact Hnumber. reflexivity.
Qed.

Lemma parse_pr_path_inv (pr_path owner repo pr_number : string) :
  parse_pr_path pr_path = inr (owner, repo, pr_number) ->
  strip "/" pr_path = pr_path_of owner repo pr_number
  /\ free_of "/" owner = true /\ free_of "/" repo = true
  /\ free_of "/" pr_number = true.
Proof.
  unfold parse_pr_path. intros H.
  destruct (split_join "/" (strip "/" pr_path)) as [Hjoin Hfree].
  destruct (split "/" (strip "/" pr_path)) as [o [|r [|pull [|n [|x more]]]]];
    try discriminate H.
  destruct (String.eqb pull "pull") eqn:E; [|discriminate H].
  apply String.eqb_eq in E. subst pull. injection H as -> -> ->.
  simpl in *. split; [symmetry; exact Hjoin|].
  inversion Hfree as [|? ? Ho Hfree1]; subst.
  inversion Hfree1 as [|? ? Hr Hfree2]; subst.
  inversion Hfree2 as [|? ? _ Hfree3]; subst.
  inversion Hfree3 as [|? ? Hn _]; subst.
  auto.
Qed.

(** X16: [parse_pr_path] accepts exactly the paths that, once the
    slashes at both ends are stripped, read [owner/repo/pull/number] with
    no slash inside owner, repo or number, and returns these three
    parts; every other path raises ValueError.  The owner and the number
    it returns are never empty (the repository name may be). *)
Theorem parse_pr_path_spec (pr_path owner repo pr_number : string) :
  (parse_pr_path pr_path = inr (owner, repo, pr_number) <->
   strip "/" pr_path = pr_path_of owner repo pr_number
   /\ free_of "/" owner = true /\ free_of "/" repo = true
   /\ free_of "/" pr_number = true)
  /\ (parse_pr_path pr_path = inr (owner, repo, pr_number) ->
      owner <> EmptyString /\ pr_number <> EmptyString)
  /\ (forall e, parse_pr_path pr_path = inl e -> e = HostError "ValueError").
Proof.
  split; [split|split].
  - apply parse_pr_path_inv.
  - intros (Hstrip & Howner & Hrepo & Hnumber). unfold parse_pr_path.
    rewrite Hstrip, split_pr_path by assumption. reflexivity.
  - intros H. apply parse_pr_path_inv in H as (Hstrip & _). split.
    + intros ->. exact (@strip_head "/" pr_path _ Hstrip).
    + intros ->.
      apply (@strip_last "/" pr_path (owner +:+ "/" +:+ repo +:+ "/pull")).
      rewrite Hstrip. unfold pr_path_of.
      rewrite <- !append_assoc. reflexivity.
  - unfold parse_pr_path. intros e.
    destruct (split "/" (strip "/" pr_path))
      as [o [|r [|pull [|n [|x more]]]]]; try congruence.
    destruct (String.eqb pull "pull"); congruence.
Qed.

(** X17: round trip: the path written from an owner, a repository
    name and a number without slashes, owner and number not empty, is
    parsed back into these three. *)
Theorem parse_pr_path_round_trip (owner repo pr_number : string) :
  free_of "/" owner = true -> free_of "/" repo = true ->
  free_of "/" pr_number = true ->
  owner <> EmptyString -> pr_number <> EmptyString ->
  parse_pr_path (pr_path_of owner repo pr_number) =
  inr (owner, repo, pr_number).
Proof.
  intros Howner Hrepo Hnumber Hfirst Hlast.
  apply parse_pr_path_spec. repeat split; try assumption.
  unfold strip.
  assert (Hl : lstrip "/" (pr_path_of owner repo pr_number) =
               pr_path_of owner repo pr_number).
  { destruct owner as [|a owner]; [congruence|].
    simpl in Howner. apply andb_prop in Howner as [Ha _].
    apply negb_true_iff in Ha. unfold pr_path_of.
    rewrite append_cons. simpl. rewrite Ha. reflexivity. }
  rewrite Hl. unfold pr_path_of.
  rewrite !append_assoc.
  assert (Hr : rstrip "/" pr_number = pr_number)
    by (apply rstrip_free; exact Hnumber).
  rewrite rstrip_app; rewrite Hr; [reflexivity|exact Hlast].
Qed.


End PrPathFacts.

Lemma parse_pr_path_round_trip_witness :
  GhPrHelper.parse_pr_path "nlothian/Vibe-Prolog/pull/10" =
  inr ("nlothian", "Vibe-Prolog", "10").
Proof.
  apply (@parse_pr_path_round_trip "nlothian" "Vibe-Prolog" "10");
    (reflexivity || discriminate).
Defined.

Lemma parse_pr_path_spec_witness :
  strip "/" "/nlothian/Vibe-Prolog/pull/10/" =
    pr_path_of "nlothian" "Vibe-Prolog" "10"
  /\ "nlothian" <> EmptyString /\ "10" <> EmptyString.
Proof.
  pose proof (@parse_pr_path_spec "/nlothian/Vibe-Prolog/pull/10/"
                "nlothian" "Vibe-Prolog" "10") as (Hiff & Hparts & _).
  split.
  - exact (proj1 (proj1 Hiff eq_refl)).
  - exact (Hparts eq_refl).
Defined.

(* ================================================================== *)
(** ** cli.py: the timeout option *)
(* ================================================================== *)

Lemma list_ind_two_steps {A : Type} (P : list A -> Prop) :
  P [] ->
  (forall x l, P l -> (forall y l', l = y :: l' -> P l') -> P (x :: l)) ->
  forall l, P l.
Proof.
  intros Hnil Hstep l.
  enough (H : P l /\ (forall y l', l = y :: l' -> P l')) by apply H.
  induction l as [|x l [IH1 IH2]].
  - split; [exact Hnil|]. intros y l' H. discriminate H.
  - split; [apply Hstep; assumption|]. intros y l' [= _ <-]. exact IH1.
Qed.

Section ParseTimeoutFacts.
Import Cli.
Variable int : string -> option Z.
Variable repr : string -> string.
Variable str : Z -> string.
Variable sys_argv : list string.

Local Abbreviation value_of := (_parse_timeout_value int repr str).
Local Abbreviation loop := (parse_timeout_loop int repr str).
Local Abbreviation parse := (_parse_timeout_arg int repr str sys_argv).
Local Abbreviation plain := (fun arg : string => timeout_option arg = false).

Lemma parse_timeout_value_positive (value : string) (t : Z) :
  value_of value = inr t <-> int value = Some t /\ (0 < t)%Z.
Proof.
  unfold _parse_timeout_value. destruct (int value) as [z|].
  - destruct (Z.leb_spec z 0); split.
    + discriminate.
    + intros [[= ->] H']. lia.
    + intros [= ->]. split; [reflexivity|lia].
    + intros [[= ->] _]. reflexivity.
  - split; [discriminate|]. intros [H _]. discriminate H.
Qed.

Lemma loop_cons (arg : string) (rest parsed_args : list string) (t : Z) :
  loop (arg :: rest) parsed_args t =
  if String.prefix "--timeout=" arg then
    match split_once "=" arg with
    | (_, Some value) =>
        match value_of value with
        | inl e => inl e
        | inr timeout => loop rest parsed_args timeout
        end
    | (_, None) => inl ValueError
    end
  else if String.eqb arg "--timeout" then
    match rest with
    | [] => inl (SystemExit "Missing value for --timeout")
    | value :: rest =>
        match value_of value with
        | inl e => inl e
        | inr timeout => loop rest parsed_args timeout
        end
    end
  else loop rest (parsed_args ++ [arg]) t.
Proof. reflexivity. Qed.

Lemma loop_plain (args : list string) :
  Forall plain args ->
  forall parsed_args t, loop args parsed_args t = inr (parsed_args ++ args, t).
Proof.
  induction 1 as [|arg args Harg _ IH]; intros parsed_args t.
  - rewrite app_nil_r. reflexivity.
  - rewrite loop_cons. unfold timeout_option in Harg.
    apply orb_false_elim in Harg as [-> ->].
    rewrite IH, <- app_assoc. reflexivity.
Qed.

Lemma loop_result (args : list string) :
  forall parsed_args t0 parsed t,
    loop args parsed_args t0 = inr (parsed, t) ->
    exists kept,
      parsed = parsed_args ++ kept /\ Forall plain kept
      /\ kept `sublist_of` args /\ (t = t0 \/ (0 < t)%Z).
Proof.
  induction args as [|arg rest IH1 IH2] using list_ind_two_steps;
    intros parsed_args t0 parsed t H.
  - injection H as <- <-. exists []. rewrite app_nil_r.
    repeat split; [constructor|constructor|left; reflexivity].
  - rewrite loop_cons in H.
    destruct (String.prefix "--timeout=" arg) eqn:Eprefix.
    { destruct (split_once "=" arg) as [_ [value|]]; [|discriminate H].
      destruct (value_of value) as [e|t1] eqn:Evalue; [discriminate H|].
      apply parse_timeout_value_positive in Evalue as [_ Ht1].
      destruct (IH1 _ _ _ _ H) as (kept & -> & Hplain & Hsub & Ht).
      exists kept. repeat split; try assumption.
      - apply sublist_cons. exact Hsub.
      - right. lia. }
    destruct (String.eqb arg "--timeout") eqn:Eeq.
    { destruct rest as [|value rest]; [discriminate H|].
      destruct (value_of value) as [e|t1] eqn:Evalue; [discriminate H|].
      apply parse_timeout_value_positive in Evalue as [_ Ht1].
      destruct (IH2 _ _ eq_refl _ _ _ _ H)
        as (kept & -> & Hplain & Hsub & Ht).
      exists kept. repeat split; try assumption.
      - apply sublist_cons, sublist_cons. exact Hsub.
      - right. lia. }
    destruct (IH1 _ _ _ _ H) as (kept & -> & Hplain & Hsub & Ht).
    exists (arg :: kept). rewrite <- app_assoc. repeat split.
    + constructor; [|exact Hplain]. unfold timeout_option.
      rewrite Eprefix, Eeq. reflexivity.
    + apply sublist_skip. exact Hsub.
    + exact Ht.
Qed.

Lemma loop_app (xs : list string) :
  forall parsed_args t0 parsed t ys,
    loop xs parsed_args t0 = inr (parsed, t) ->
    loop (xs ++ ys) parsed_args t0 = loop ys parsed t.
Proof.
  induction xs as [|arg rest IH1 IH2] using list_ind_two_steps;
    intros parsed_args t0 parsed t ys H.
  - injection H as <- <-. reflexivity.
  - rewrite loop_cons in H. rewrite <- app_comm_cons, loop_cons.
    destruct (String.prefix "--timeout=" arg).
    { destruct (split_once "=" arg) as [_ [value|]]; [|discriminate H].
      destruct (value_of value) as [e|t1]; [discriminate H|].
      apply IH1. exact H. }
    destruct (String.eqb arg "--timeout").
    { destruct rest as [|value rest]; [discriminate H|].
      rewrite <- app_comm_cons.
      destruct (value_of value) as [e|t1]; [discriminate H|].
      apply (IH2 _ _ eq_refl). exact H. }
    apply IH1. exact H.
Qed.

(** X19: without a timeout option on the command line,
    [_parse_timeout_arg] returns the arguments as they are and the
    default, which is not checked (it may be zero or negative). *)
Theorem parse_timeout_arg_without_option (argv : option (list string))
  (default : Z) :
  Forall plain (_argv sys_argv argv) ->
  parse argv default = inr (_argv sys_argv argv, default).
Proof.
  intros H. unfold _parse_timeout_arg. rewrite loop_plain by exact H.
  reflexivity.
Qed.

(** X20: when [_parse_timeout_arg] returns, no timeout option is left
    among the arguments it returns; these are arguments of the command
    line, in their order; and the timeout is the default or a positive
    number. *)
Theorem parse_timeout_arg_result (argv : option (list string))
  (default : Z) (parsed : list string) (timeout : Z) :
  parse argv default = inr (parsed, timeout) ->
  Forall plain parsed
  /\ parsed `sublist_of` _argv sys_argv argv
  /\ (timeout = default \/ (0 < timeout)%Z).
Proof.
  intros H. apply loop_result in H as (kept & -> & Hplain & Hsub & Ht).
  auto.
Qed.

(** X21: the last timeout option wins, in either spelling: after a
    command line that parses, [--timeout V] and [--timeout=V] with a
    valid V both give the same arguments and the timeout V, whatever
    options came before; with an invalid V both exit with the message of
    [_parse_timeout_value], whatever follows on the command line; and a
    final [--timeout] without a value exits with "Missing value for
    --timeout". *)
Theorem parse_timeout_arg_last_option (argv : list string) (default : Z)
  (parsed : list string) (t0 : Z) :
  _parse_timeout_arg int repr str sys_argv (Some argv) default =
    inr (parsed, t0) ->
  (forall value t,
      _parse_timeout_value int repr str value = inr t ->
      parse (Some (argv ++ ["--timeout"; value])) default = inr (parsed, t)
      /\ parse (Some (argv ++ ["--timeout=" +:+ value])) default =
         inr (parsed, t))
  /\ (forall value e more,
      _parse_timeout_value int repr str value = inl e ->
      parse (Some (argv ++ "--timeout" :: value :: more)) default = inl e
      /\ parse (Some (argv ++ ("--timeout=" +:+ value) :: more)) default =
         inl e)
  /\ parse (Some (argv ++ ["--timeout"])) default =
     inl (SystemExit "Missing value for --timeout").
Proof.
  unfold _parse_timeout_arg. simpl. intros H.
  split; [|split].
  - intros value t Hvalue. rewrite !(loop_app _ _ _ _ H). split.
    + rewrite loop_cons. simpl. rewrite Hvalue. reflexivity.
    + rewrite loop_cons.
      change (String.prefix "--timeout=" ("--timeout=" +:+ value))
        with (String.prefix "" value).
      change (split_once "=" ("--timeout=" +:+ value))
        with (let (head, tail) :=
                (EmptyString, Some value) : string * option string in
              ("--timeout" +:+ head, tail)).
      destruct value; simpl; rewrite Hvalue; reflexivity.
  - intros value e more Hvalue. rewrite !(loop_app _ _ _ _ H). split.
    + rewrite loop_cons. simpl. rewrite Hvalue. reflexivity.
    + rewrite loop_cons.
      change (String.prefix "--timeout=" ("--timeout=" +:+ value))
        with (String.prefix "" value).
      change (split_once "=" ("--timeout=" +:+ value))
        with (let (head, tail) :=
                (EmptyString, Some value) : string * option string in
              ("--timeout" +:+ head, tail)).
      destruct value; simpl; rewrite Hvalue; reflexivity.
  - rewrite (loop_app _ _ _ _ H). reflexivity.
Qed.

End ParseTimeoutFacts.

Lemma parse_timeout_arg_without_option_witness :
  Cli._parse_timeout_arg toy_int toy_repr toy_str ["prog"]
    (Some ["fix"; "12"]) 1200
  = inr (["fix"; "12"], 1200%Z)
  /\ Cli._parse_timeout_arg toy_int toy_repr toy_str ["prog"] None 0
  = inr (["prog"], 0%Z).
Proof.
  split.
  - apply (parse_timeout_arg_without_option toy_int toy_repr toy_str
             ["prog"] (Some ["fix"; "12"]) 1200).
    repeat constructor.
  - apply (parse_timeout_arg_without_option toy_int toy_repr toy_str
             ["prog"] None 0).
    repeat constructor.
Defined.

Lemma parse_timeout_arg_result_witness :
  Forall (fun arg => timeout_option arg = false) ["fix"; "12"]
  /\ ["fix"; "12"] `sublist_of` ["fix"; "--timeout"; "30"; "12"]
  /\ (30 = 1200 \/ 0 < 30)%Z.
Proof.
  exact (parse_timeout_arg_result toy_int toy_repr toy_str ["prog"]
           (Some ["fix"; "--timeout"; "30"; "12"]) 1200
           (parsed:=["fix"; "12"]) (timeout:=30) eq_refl).
Defined.

Lemma parse_timeout_arg_last_option_witness :
  Cli._parse_timeout_arg toy_int toy_repr toy_str ["prog"]
    (Some (["fix"; "--timeout=30"] ++ ["--timeout"; "12"])) 1200
  = inr (["fix"], 12%Z)
  /\ Cli._parse_timeout_arg toy_int toy_repr toy_str ["prog"]
    (Some (["fix"; "--timeout=30"] ++ ["--timeout=" +:+ "0"; "12"])) 1200
  = inl (Cli.SystemExit "Timeout must be greater than zero (got 0)")
  /\ Cli._parse_timeout_arg toy_int toy_repr toy_str ["prog"]
    (Some (["fix"; "--timeout=30"] ++ ["--timeout"])) 1200
  = inl (Cli.SystemExit "Missing value for --timeout").
Proof.
  destruct (parse_timeout_arg_last_option toy_int toy_repr toy_str ["prog"]
              ["fix"; "--timeout=30"] 1200 (parsed:=["fix"]) (t0:=30)
              eq_refl) as (Hvalid & Hinvalid & Hmissing).
  split; [|split].
  - exact (proj1 (Hvalid "12" 12%Z eq_refl)).
  - exact (proj2 (Hinvalid "0" _ ["12"] eq_refl)).
  - exact Hmissing.
Defined.

(* ================================================================== *)
(** ** change_tracker.py: reading the git log *)
(* ================================================================== *)

Section SplitMaxFacts.
Variable c : ascii.

Lemma split_once_app (a b : string) :
  free_of c a = true -> split_once c (a +:+ String c b) = (a, Some b).
Proof.
  induction a as [|x a IH]; simpl.
  - intros _. rewrite Ascii.eqb_refl. reflexivity.
  - intros H. apply andb_prop in H as [Hx Ha]. rewrite IH by exact Ha.
    apply negb_true_iff in Hx. rewrite Hx. reflexivity.
Qed.

Lemma split_once_free (s : string) :
  free_of c s = true -> split_once c s = (s, None).
Proof.
  induction s as [|x s IH]; simpl; [reflexivity|].
  intros H. apply andb_prop in H as [Hx Hs]. rewrite IH by exact Hs.
  apply negb_true_iff in Hx. rewrite Hx. reflexivity.
Qed.

Lemma split_max_app (n : nat) (a b : string) :
  free_of c a = true ->
  split_max c (S n) (a +:+ String c b) =
  (a, fst (split_max c n b) :: snd (split_max c n b)).
Proof. intros H. simpl. rewrite split_once_app by exact H. reflexivity. Qed.

Lemma split_max_free (n : nat) (s : string) :
  free_of c s = true -> split_max c n s = (s, []).
Proof.
  intros H. destruct n; simpl; [reflexivity|].
  rewrite split_once_free by exact H. reflexivity.
Qed.

End SplitMaxFacts.

Section GitStatsFacts.
Import ChangeTracker.
Variable int : string -> option Z.

Local Abbreviation entries := (numstat_entries int).
Local Abbreviation stats := (get_git_stats int).

Lemma stats_loop_spec (lines : list string) :
  forall files i d,
    stats_loop int lines files i d =
    (touched (entries lines) ∪ files,
     (i + total (fun e => fst (fst e)) (entries lines))%Z,
     (d + total (fun e => snd (fst e)) (entries lines))%Z).
Proof.
  unfold touched, numstat_entries.
  induction lines as [|line rest IH]; intros files i d; simpl.
  - rewrite !Z.add_0_r. f_equal. f_equal.
    apply set_eq. intros x. rewrite elem_of_union, elem_of_empty. tauto.
  - destruct (numstat_entry int line) as [[[x y] path]|]; [|apply IH].
    rewrite IH. simpl. f_equal; [f_equal|].
    + apply set_eq. intros z. rewrite !elem_of_union. tauto.
    + rewrite <- Z.add_assoc. reflexivity.
    + rewrite <- Z.add_assoc. reflexivity.
Qed.

Lemma get_git_stats_spec (lines : list string) :
  stats (Some lines) =
  Some (MkStats (size (touched (entries lines)))
          (total (fun e => fst (fst e)) (entries lines))
          (total (fun e => snd (fst e)) (entries lines))).
Proof.
  unfold get_git_stats.
  rewrite stats_loop_spec, (right_id_L ∅ (∪)). reflexivity.
Qed.

Lemma total_app column (xs ys : list (Z * Z * string)) :
  total column (xs ++ ys) = (total column xs + total column ys)%Z.
Proof.
  induction xs as [|x xs IH]; simpl; [reflexivity|]. rewrite IH. lia.
Qed.

Lemma total_perm column (xs ys : list (Z * Z * string)) :
  xs ≡ₚ ys -> total column xs = total column ys.
Proof.
  induction 1; simpl; try lia.
Qed.

(** X22: [get_git_stats] aggregates: for a log in two parts, the
    insertions and the deletions of the whole are the sums of those of
    the parts, while a file is counted once however often it is named:
    [files_changed] is the number of distinct paths of the two parts
    together, at most the sum of the parts' counts and at least each of
    them. *)
Theorem get_git_stats_aggregates (first second : list string) :
  exists s1 s2 s,
    stats (Some first) = Some s1 /\ stats (Some second) = Some s2
    /\ stats (Some (first ++ second)) = Some s
    /\ insertions s = (insertions s1 + insertions s2)%Z
    /\ deletions s = (deletions s1 + deletions s2)%Z
    /\ files_changed s =
       size (touched (entries first) ∪ touched (entries second))
    /\ files_changed s <= files_changed s1 + files_changed s2
    /\ files_changed s1 <= files_changed s
    /\ files_changed s2 <= files_changed s.
Proof.
  rewrite !get_git_stats_spec. do 3 eexists.
  split; [reflexivity|]. split; [reflexivity|]. split; [reflexivity|].
  simpl. unfold numstat_entries. rewrite omap_app, !total_app.
  assert (Hunion :
    touched (omap (numstat_entry int) first ++ omap (numstat_entry int) second)
    = touched (omap (numstat_entry int) first)
      ∪ touched (omap (numstat_entry int) second)).
  { unfold touched. rewrite fmap_app. apply list_to_set_app_L. }
  rewrite Hunion. repeat split.
  - rewrite size_union_alt.
    pose proof (subseteq_size
                  (touched (omap (numstat_entry int) second)
                   ∖ touched (omap (numstat_entry int) first))
                  (touched (omap (numstat_entry int) second))) as H.
    assert (touched (omap (numstat_entry int) second)
            ∖ touched (omap (numstat_entry int) first)
            ⊆ touched (omap (numstat_entry int) second)).
    { intros x Hx. apply elem_of_difference in Hx. tauto. }
    specialize (H H0). lia.
  - apply subseteq_size. apply union_subseteq_l.
  - apply subseteq_size. apply union_subseteq_r.
Qed.

(** X23: the statistics do not depend on the order of the lines of
    the log. *)
Theorem get_git_stats_order_independent (lines lines' : list string) :
  lines ≡ₚ lines' ->
  get_git_stats int (Some lines) = get_git_stats int (Some lines').
Proof.
  intros H. rewrite !get_git_stats_spec.
  assert (He : entries lines ≡ₚ entries lines')
    by (unfold numstat_entries; rewrite H; reflexivity).
  rewrite !(total_perm _ He).
  unfold touched. rewrite (list_to_set_perm_L _ _ (fmap_Permutation _ _ _ He)).
  reflexivity.
Qed.

(** Lines that are not numstat lines change nothing. *)
Lemma get_git_stats_skips_other_lines (before after : list string)
  (line : string) :
  (free_of tab line = true
   \/ (exists a b, line = a +:+ String tab b
                   /\ free_of tab a = true /\ free_of tab b = true)
   \/ (exists a b, line = a +:+ String tab (b +:+ String tab EmptyString)
                   /\ free_of tab a = true /\ free_of tab b = true)) ->
  stats (Some (before ++ line :: after)) = stats (Some (before ++ after)).
Proof.
  intros Hline.
  assert (Hnone : numstat_entry int line = None).
  { unfold numstat_entry.
    destruct Hline as [H|[(a & b & -> & Ha & Hb)|(a & b & -> & Ha & Hb)]].
    - rewrite H. reflexivity.
    - rewrite split_max_app by exact Ha.
      rewrite split_max_free by exact Hb.
      destruct (free_of tab (a +:+ String tab b)); reflexivity.
    - rewrite split_max_app by exact Ha.
      rewrite split_max_app by exact Hb.
      destruct (free_of tab (a +:+ String tab (b +:+ String tab EmptyString)));
        reflexivity. }
  rewrite !get_git_stats_spec. unfold numstat_entries.
  rewrite !omap_app. simpl. rewrite Hnone. reflexivity.
Qed.

End GitStatsFacts.

Section SplitOnceFacts.
Variable c : ascii.

Lemma split_once_inv (s head : string) (tail : option string) :
  split_once c s = (head, tail) ->
  free_of c head = true
  /\ s = match tail with
         | Some rest => head +:+ String c rest
         | None => head
         end.
Proof.
  revert head tail. induction s as [|x s IH]; simpl; intros head tail H.
  - injection H as <- <-. split; reflexivity.
  - destruct (Ascii.eqb x c) eqn:E.
    + injection H as <- <-. apply Ascii.eqb_eq in E. subst x.
      split; reflexivity.
    + destruct (split_once c s) as [h t]. injection H as <- <-.
      destruct (IH h t eq_refl) as [Hfree Hs]. split.
      * simpl. rewrite E, Hfree. reflexivity.
      * rewrite Hs at 1. destruct t; reflexivity.
Qed.

Lemma free_of_app (a b : string) :
  free_of c (a +:+ String c b) = false.
Proof.
  induction a as [|x a IH].
  - simpl. rewrite Ascii.eqb_refl. reflexivity.
  - rewrite append_cons. simpl. rewrite IH. apply andb_false_r.
Qed.

End SplitOnceFacts.

Section NumstatFacts.
Import ChangeTracker.
Variable int : string -> option Z.

(** X24: a line of the log counts exactly when it reads
    [insertions TAB deletions TAB path] with a path that is not empty
    (the path may contain tabs itself); a count that [int] does not
    accept -- the [-] of a binary file -- counts as zero.  Every other
    line, such as a commit hash or a blank line, is skipped. *)
Theorem numstat_entry_spec (line : string) (i d : Z) (path : string) :
  numstat_entry int line = Some (i, d, path) <->
  exists a b,
    line = a +:+ String tab (b +:+ String tab path)
    /\ free_of tab a = true /\ free_of tab b = true
    /\ path <> EmptyString
    /\ i = int_or_zero int a /\ d = int_or_zero int b.
Proof.
  split.
  - unfold numstat_entry. destruct (free_of tab line); [discriminate|].
    simpl.
    destruct (split_once tab line) as [a [rest|]] eqn:E1; [|discriminate].
    destruct (split_once tab rest) as [b [rest'|]] eqn:E2; [|discriminate].
    simpl. destruct (String.eqb rest' EmptyString) eqn:E; [discriminate|].
    intros [= <- <- <-].
    apply split_once_inv in E1 as [Ha ->].
    apply split_once_inv in E2 as [Hb ->].
    apply String.eqb_neq in E. exists a, b.
    split; [reflexivity|]. split; [exact Ha|]. split; [exact Hb|].
    split; [exact E|]. split; reflexivity.
  - intros (a & b & -> & Ha & Hb & Hpath & -> & ->).
    unfold numstat_entry. rewrite free_of_app.
    rewrite split_max_app by exact Ha.
    rewrite split_max_app by exact Hb.
    simpl. apply String.eqb_neq in Hpath. rewrite Hpath. reflexivity.
Qed.

End NumstatFacts.

Section GitChangesFacts.
Import ChangeTracker.
Variable first_word : string -> option string.

Lemma changes_loop_cons (line : string) (rest : list string)
  (commits : list Commit) :
  changes_loop first_word (line :: rest) commits =
  if String.eqb line EmptyString then changes_loop first_word rest commits
  else
    match split_max "|" 3 line with
    | (part0, [part1; part2; part3]) =>
        match first_word part1 with
        | None => inl (HostError "IndexError")
        | Some word =>
            changes_loop first_word rest
              (commits ++ [MkCommit (String.substring 0 8 part0) word part2
                             part3])
        end
    | _ => changes_loop first_word rest commits
    end.
Proof. reflexivity. Qed.

Lemma changes_loop_app (xs : list string) :
  forall ys commits commits',
    changes_loop first_word xs commits = inr commits' ->
    changes_loop first_word (xs ++ ys) commits =
    changes_loop first_word ys commits'.
Proof.
  induction xs as [|line xs IH]; intros ys commits commits' H.
  - injection H as <-. reflexivity.
  - rewrite <- app_comm_cons. rewrite changes_loop_cons in *.
    destruct (String.eqb line EmptyString); [apply IH; exact H|].
    destruct (split_max "|" 3 line) as [p0 [|p1 [|p2 [|p3 [|p4 more]]]]];
      try (apply IH; exact H).
    destruct (first_word p1); [apply IH; exact H|discriminate H].
Qed.

Lemma commit_line_parts (h d a m : string) :
  free_of "|" h = true -> free_of "|" d = true -> free_of "|" a = true ->
  String.eqb (commit_line h d a m) EmptyString = false
  /\ split_max "|" 3 (commit_line h d a m) = (h, [d; a; m]).
Proof.
  intros Hh Hd Ha. unfold commit_line.
  change (h +:+ "|" +:+ d +:+ "|" +:+ a +:+ "|" +:+ m)
    with (h +:+ String "|" (d +:+ String "|" (a +:+ String "|" m))).
  split.
  - destruct h; reflexivity.
  - rewrite split_max_app by exact Hh.
    rewrite split_max_app by exact Hd.
    rewrite split_max_app by exact Ha. reflexivity.
Qed.

(** X25: a log line [hash|date|author|message] with no [|] in hash,
    date and author adds one commit to those [get_git_changes] returns:
    the first eight characters of the hash, the first word of the date,
    the author, and the message in full -- also when the message
    contains [|].  When the date has no word, the function raises
    IndexError and returns nothing. *)
Theorem get_git_changes_commit_line (lines : list string)
  (commits : list Commit) (h d a m : string) :
  free_of "|" h = true -> free_of "|" d = true -> free_of "|" a = true ->
  get_git_changes first_word (Some lines) = inr (Some commits) ->
  get_git_changes first_word (Some (lines ++ [commit_line h d a m])) =
  match first_word d with
  | Some word =>
      inr (Some (commits ++ [MkCommit (String.substring 0 8 h) word a m]))
  | None => inl (HostError "IndexError")
  end.
Proof.
  intros Hh Hd Ha H. unfold get_git_changes in *.
  destruct (changes_loop first_word lines []) as [e|cs] eqn:E;
    [discriminate H|].
  injection H as ->. erewrite changes_loop_app by exact E.
  rewrite changes_loop_cons.
  destruct (@commit_line_parts h d a m Hh Hd Ha) as [-> ->].
  destruct (first_word d); reflexivity.
Qed.

Lemma substring_length (n : nat) (s : string) :
  String.length (String.substring 0 n s) <= n.
Proof.
  revert s. induction n as [|n IH]; intros [|x s]; simpl; try lia.
  specialize (IH s). lia.
Qed.

Lemma changes_loop_invariant (P : Commit -> Prop) (lines : list string) :
  (forall p0 w p2 p3,
      free_of "|" p0 = true -> free_of "|" p2 = true ->
      P (MkCommit (String.substring 0 8 p0) w p2 p3)) ->
  forall commits commits',
    Forall P commits ->
    changes_loop first_word lines commits = inr commits' ->
    Forall P commits'.
Proof.
  intros HP. induction lines as [|line lines IH];
    intros commits commits' Hcommits H; simpl in H.
  - injection H as <-. exact Hcommits.
  - destruct (String.eqb line EmptyString); [eapply IH; eassumption|].
    unfold split_max in H.
    destruct (split_once "|" line) as [p0 [r0|]] eqn:E0;
      [|eapply IH; eassumption].
    destruct (split_once "|" r0) as [p1 [r1|]] eqn:E1;
      [|eapply IH; eassumption].
    destruct (split_once "|" r1) as [p2 [r2|]] eqn:E2;
      [|eapply IH; eassumption].
    simpl in H. destruct (first_word p1) as [w|]; [|discriminate H].
    eapply IH; [|exact H]. apply Forall_app. split; [exact Hcommits|].
    constructor; [|constructor]. apply HP.
    + apply split_once_inv in E0. tauto.
    + apply split_once_inv in E2. tauto.
Qed.

(** X26: whatever the log, the list [get_git_changes] returns has at
    most one commit for each line, every hash in it has at most eight
    characters, and no author in it contains [|]. *)
Theorem get_git_changes_invariant (lines : list string)
  (commits : list Commit) :
  get_git_changes first_word (Some lines) = inr (Some commits) ->
  length commits <= length lines
  /\ Forall (fun commit =>
               String.length (hash commit) <= 8
               /\ free_of "|" (author commit) = true)
       commits.
Proof.
  unfold get_git_changes.
  destruct (changes_loop first_word lines []) as [e|cs] eqn:E;
    [discriminate|].
  intros [= <-]. split.
  - enough (Hlen : forall ls acc out,
              changes_loop first_word ls acc = inr out ->
              length out <= length acc + length ls)
      by (apply Hlen in E; simpl in E; exact E).
    clear. induction ls as [|l ls IH]; intros acc out H; simpl in *.
    + injection H as <-. lia.
    + destruct (String.eqb l EmptyString);
        [apply IH in H; lia|].
      destruct (split_once "|" l) as [p0 [r0|]];
        [|apply IH in H; lia].
      destruct (split_once "|" r0) as [p1 [r1|]];
        [|apply IH in H; simpl in H; lia].
      destruct (split_once "|" r1) as [p2 [r2|]];
        [|apply IH in H; simpl in H; lia].
      simpl in H. destruct (first_word p1); [|discriminate H].
      apply IH in H. rewrite length_app in H. simpl in H. lia.
  - eapply changes_loop_invariant; [|constructor|exact E].
    intros p0 w p2 p3 _ Hp2. simpl. split; [apply substring_length|exact Hp2].
Qed.

End GitChangesFacts.

Lemma get_git_stats_order_independent_witness :
  ChangeTracker.get_git_stats toy_int
    (Some ["30" +:+ String tab ("12" +:+ String tab "a.py"); "0123abcd"])
  = ChangeTracker.get_git_stats toy_int
    (Some ["0123abcd"; "30" +:+ String tab ("12" +:+ String tab "a.py")]).
Proof.
  apply (get_git_stats_order_independent toy_int). apply perm_swap.
Defined.

Lemma numstat_entry_spec_witness :
  ChangeTracker.numstat_entry toy_int
    ("-" +:+ String tab ("12" +:+ String tab "logo.png"))
  = Some (0%Z, 12%Z, "logo.png").
Proof.
  apply (numstat_entry_spec toy_int). exists "-", "12".
  repeat split; discriminate.
Defined.

Lemma get_git_changes_commit_line_witness :
  ChangeTracker.get_git_changes toy_first_word
    (Some ([] ++ [commit_line "0123456789abcdef" "2025-01-02 10:00:00 +0000"
                    "A. Author" "Fix a|b parsing"]))
  = inr (Some ([] ++ [ChangeTracker.MkCommit "01234567" "2025-01-02"
                        "A. Author" "Fix a|b parsing"])).
Proof.
  exact (@get_git_changes_commit_line toy_first_word [] []
           "0123456789abcdef" "2025-01-02 10:00:00 +0000" "A. Author"
           "Fix a|b parsing" eq_refl eq_refl eq_refl eq_refl).
Defined.

Lemma get_git_changes_invariant_witness :
  length [ChangeTracker.MkCommit "01234567" "2025-01-02" "A. Author" "m"]
  <= length ["0123456789abcdef|2025-01-02 10:00|A. Author|m"; "junk"]
  /\ Forall (fun commit =>
               String.length (ChangeTracker.hash commit) <= 8
               /\ free_of "|" (ChangeTracker.author commit) = true)
       [ChangeTracker.MkCommit "01234567" "2025-01-02" "A. Author" "m"].
Proof.
  exact (@get_git_changes_invariant toy_first_word
           ["0123456789abcdef|2025-01-02 10:00|A. Author|m"; "junk"]
           _ eq_refl).
Defined.
